(** * fix_nullables.py: a model of the two regex rewriters and the file loop

    The script rewrites C# test sources with two [re.sub] calls and writes a
    file back when its text changed.  This development embeds

    - Python text as lists of Unicode code points, with the character classes
      [\s] and [\w] of the [re] module on [str] patterns;
    - the fragment of the regular-expression language the two patterns use,
      run by a backtracking matcher with greedy repetition and capture groups;
    - [re.sub] with a replacement callback, [str.split], [str.strip];
    - [fix_read_by_id_pattern], [fix_first_or_default_pattern],
      [process_file] and the main loop, over an explicit world (file system
      and event trace) with Python exceptions as values. *)

From Stdlib Require Import NArith String Ascii List Bool Lia.
From stdpp Require Import base option list gmap.

Local Open Scope N_scope.

(** ** Text *)

(** A Python [str] is a sequence of code points. *)
Abbreviation pystr := (list N).

Definition ch (a : ascii) : N := N_of_ascii a.
Arguments ch a%_char.

Fixpoint str (s : string) : pystr :=
  match s with
  | EmptyString => []
  | String a s' => N_of_ascii a :: str s'
  end.
Arguments str s%_string.

(** The line feed written ["\n"] in the source. *)
Definition nl : N := 10.

(** [Py_UNICODE_ISSPACE]: what [\s] matches in a [str] pattern and what
    [str.strip()] removes. *)
Definition space_points : list N :=
  [9; 10; 11; 12; 13; 28; 29; 30; 31; 32; 133; 160; 5760;
   8192; 8193; 8194; 8195; 8196; 8197; 8198; 8199; 8200; 8201; 8202;
   8232; 8233; 8239; 8287; 12288].

Definition is_space (c : N) : bool := existsb (N.eqb c) space_points.

Definition ascii_alnum (c : N) : bool :=
  ((48 <=? c) && (c <=? 57)) || ((65 <=? c) && (c <=? 90)) || ((97 <=? c) && (c <=? 122)).

(** ** Exceptions

    The exceptions the script can meet, all subclasses of [Exception]; each
    carries the text [str(e)] prints. *)

Inductive exn :=
| IndexError (msg : pystr)
| OSError (msg : pystr)
| UnicodeDecodeError (msg : pystr).

Definition exn_str (e : exn) : pystr :=
  match e with
  | IndexError msg | OSError msg | UnicodeDecodeError msg => msg
  end.

(** The outcome of a Python call: a value, or an exception on its way up. *)
Inductive exc (A : Type) :=
| Return (a : A)
| Raise (e : exn).
Arguments Return {A} a.
Arguments Raise {A} e.

Definition exc_bind {A B} (f : A -> exc B) (x : exc A) : exc B :=
  match x with
  | Return a => f a
  | Raise e => Raise e
  end.

#[export] Instance exc_ret : MRet exc := fun A a => Return a.
#[export] Instance exc_mbind : MBind exc := fun A B f x => exc_bind f x.

(** ** The string methods the replacer calls *)

(** [s.split(sep)] for a one-character separator. *)
Fixpoint split (sep : N) (s : pystr) : list pystr :=
  match s with
  | [] => [[]]
  | x :: s' =>
      if x =? sep then [] :: split sep s'
      else match split sep s' with
           | h :: t => (x :: h) :: t
           | [] => [[x]]
           end
  end.

(** [l[i]]: an index out of range raises. *)
Definition index {A} (l : list A) (i : nat) : exc A :=
  match l !! i with
  | Some a => Return a
  | None => Raise (IndexError (str "list index out of range"))
  end.

Fixpoint lstrip (s : pystr) : pystr :=
  match s with
  | x :: s' => if is_space x then lstrip s' else s
  | [] => []
  end.

Definition rstrip (s : pystr) : pystr := rev (lstrip (rev s)).

(** [s.strip()] *)
Definition strip (s : pystr) : pystr := rstrip (lstrip s).

(** ** Regular expressions: the fragment the two patterns are written in *)

Inductive cclass :=
| Space              (* \s *)
| Word               (* \w *)
| NotChar (c : N).   (* [^c] *)

Inductive regex :=
| Str (l : pystr)               (* literal text *)
| Star (k : cclass)             (* k*, greedy *)
| Plus (k : cclass)             (* k+, greedy *)
| Cat (r1 r2 : regex)           (* r1 r2 *)
| Group (n : nat) (r : regex).  (* ( r ), the n-th capture group *)

Infix "@@" := Cat (at level 60, right associativity).

(** [match.group(n)] in a match whose groups are [m] *)
Definition group (m : gmap nat pystr) (n : nat) : exc pystr :=
  match m !! n with
  | Some t => Return t
  | None => Raise (IndexError (str "no such group"))
  end.

(** Literal text at the head of [s]. *)
Fixpoint eat (l s : pystr) : option pystr :=
  match l, s with
  | [], _ => Some s
  | c :: l', x :: s' => if x =? c then eat l' s' else None
  | _ :: _, [] => None
  end.

Section Platform.

(** [Py_UNICODE_ISALNUM] beyond ASCII is a table of the Python runtime, not of
    this repository: the model takes it as a parameter. *)
Variable uni_alnum : N -> bool.

Definition is_alnum (c : N) : bool :=
  if c <? 128 then ascii_alnum c else uni_alnum c.

(** [\w] in a [str] pattern: alphanumeric or the underscore. *)
Definition is_word (c : N) : bool := is_alnum c || (c =? ch "_").

Definition in_class (k : cclass) (c : N) : bool :=
  match k with
  | Space => is_space c
  | Word => is_word c
  | NotChar d => negb (c =? d)
  end.

(** ** The backtracking matcher

    A continuation stands for the rest of the pattern; it fails with [None],
    and the matcher then tries its next alternative, as [re] does. *)

(** Greedy repetition of a class: the longest run first, then shorter ones. *)
Fixpoint greedy {A} (k : cclass) (s : pystr) (cont : pystr -> option A) : option A :=
  match s with
  | x :: s' =>
      if in_class k x then
        match greedy k s' cont with
        | Some a => Some a
        | None => cont s
        end
      else cont s
  | [] => cont s
  end.

Fixpoint run {A} (r : regex) (s : pystr) (g : gmap nat pystr)
    (cont : pystr -> gmap nat pystr -> option A) : option A :=
  match r with
  | Str l =>
      match eat l s with
      | Some s' => cont s' g
      | None => None
      end
  | Star k => greedy k s (fun s' => cont s' g)
  | Plus k =>
      match s with
      | x :: s' => if in_class k x then greedy k s' (fun s'' => cont s'' g) else None
      | [] => None
      end
  | Cat r1 r2 => run r1 s g (fun s' g' => run r2 s' g' cont)
  | Group n r1 =>
      run r1 s g (fun s' g' => cont s' (<[n := take (length s - length s') s]> g'))
  end.

(** A match anchored at the head of [s] (a scan position of [re.sub]): the
    groups, group 0 being the whole match, and the text left after it. *)
Definition re_match (r : regex) (s : pystr) : option (gmap nat pystr * pystr) :=
  run (Group 0 r) s ∅ (fun s' g => Some (g, s')).

(** ** Match objects and [re.sub] *)

(** [re.sub(pattern, repl, string)] with a callable [repl], scanning from
    the left.  [skip] counts the characters of the last match still to pass
    over: the scan resumes where that match ended.  An empty match is
    replaced too, and the scan then moves one character on. *)
Fixpoint sub_from (r : regex) (repl : gmap nat pystr -> exc pystr)
    (s : pystr) (skip : nat) : exc pystr :=
  match skip, s with
  | S n, _ :: s' => sub_from r repl s' n
  | S _, [] => Return []
  | O, _ =>
      match re_match r s with
      | Some (m, rest) =>
          t ← repl m;
          match s with
          | [] => Return t
          | c :: s' =>
              match (length s - length rest)%nat with
              | O => o ← sub_from r repl s' 0; Return (t ++ c :: o)
              | S n => o ← sub_from r repl s' n; Return (t ++ o)
              end
          end
      | None =>
          match s with
          | [] => Return []
          | c :: s' => o ← sub_from r repl s' 0; Return (c :: o)
          end
      end
  end.

Definition re_sub (r : regex) (repl : gmap nat pystr -> exc pystr) (s : pystr) : exc pystr :=
  sub_from r repl s 0.

(** ** The two rewriters *)

(** r'(\s+)(\w+)\s+(\w+)\s*=\s*await\s+\w+\.ReadByIdAsync\([^)]+\);' *)
Definition read_by_id_regex : regex :=
  Group 1 (Plus Space) @@ Group 2 (Plus Word) @@ Plus Space @@ Group 3 (Plus Word) @@
  Star Space @@ Str (str "=") @@ Star Space @@ Str (str "await") @@ Plus Space @@
  Plus Word @@ Str (str ".ReadByIdAsync(") @@ Plus (NotChar (ch ")")) @@ Str (str ");").

Definition read_by_id_replacer (m : gmap nat pystr) : exc pystr :=
  indent ← group m 1;
  type_name ← group m 2;
  var_name ← group m 3;
  whole ← group m 0;
  expr ← index (split (ch "=") whole) 1;
  Return (indent ++ type_name ++ str "? " ++ var_name ++ str " = await " ++ strip expr
          ++ [nl] ++ indent ++ str "Assert.NotNull(" ++ var_name ++ str ");").

Definition fix_read_by_id_pattern (content : pystr) : exc pystr :=
  re_sub read_by_id_regex read_by_id_replacer content.

(** r'(\s+)(\w+)\s+(\w+)\s*=\s*([^;]+\.FirstOrDefault\([^)]*\));' *)
Definition first_or_default_regex : regex :=
  Group 1 (Plus Space) @@ Group 2 (Plus Word) @@ Plus Space @@ Group 3 (Plus Word) @@
  Star Space @@ Str (str "=") @@ Star Space @@
  Group 4 (Plus (NotChar (ch ";")) @@ Str (str ".FirstOrDefault(") @@
           Star (NotChar (ch ")")) @@ Str (str ")")) @@
  Str (str ";").

Definition first_or_default_replacer (m : gmap nat pystr) : exc pystr :=
  indent ← group m 1;
  type_name ← group m 2;
  var_name ← group m 3;
  rhs ← group m 4;
  Return (indent ++ type_name ++ str "? " ++ var_name ++ str " = " ++ rhs ++ str ";"
          ++ [nl] ++ indent ++ str "Assert.NotNull(" ++ var_name ++ str ");").

Definition fix_first_or_default_pattern (content : pystr) : exc pystr :=
  re_sub first_or_default_regex first_or_default_replacer content.

(** ** The world outside: file system, console, exceptions

    The file system is the operating system's: its state and the two calls
    the script makes are parameters.  [os_read fs path] is
    [open(path, 'r', encoding='utf-8')] followed by [read()], which raises
    when the file is missing, unreadable or not UTF-8.  [os_write fs path text]
    is [open(path, 'w', encoding='utf-8')] followed by [write(text)]; it
    gives the file system afterwards, also when it raises. *)

Variable FS : Type.
Variable os_read : FS -> pystr -> exc pystr.
Variable os_write : FS -> pystr -> pystr -> FS * exc unit.

Inductive event :=
| OpenRead (path : pystr)
| OpenWrite (path : pystr) (text : pystr)
| Print (line : pystr).

Record world := World { fs : FS; trace : list event }.

Definition log (ev : event) (w : world) : world :=
  World (fs w) (trace w ++ [ev]).

(** A statement of the script: it changes the world and returns or raises. *)
Definition io (A : Type) : Type := world -> world * exc A.

Definition io_ret {A} (a : A) : io A := fun w => (w, Return a).

Definition io_bind {A B} (f : A -> io B) (x : io A) : io B :=
  fun w =>
    match x w with
    | (w', Return a) => f a w'
    | (w', Raise e) => (w', Raise e)
    end.

#[export] Instance io_mret : MRet io := fun A a => io_ret a.
#[export] Instance io_mbind : MBind io := fun A B f x => io_bind f x.

(** A pure call that may raise. *)
Definition lift {A} (x : exc A) : io A := fun w => (w, x).

(** [try: body / except Exception as e: handler(e)] *)
Definition try_except {A} (body : io A) (handler : exn -> io A) : io A :=
  fun w =>
    match body w with
    | (w', Return a) => (w', Return a)
    | (w', Raise e) => handler e w'
    end.

Definition print (line : pystr) : io unit :=
  fun w => (log (Print line) w, Return tt).

Definition read_text (path : pystr) : io pystr :=
  fun w => (log (OpenRead path) w, os_read (fs w) path).

Definition write_text (path text : pystr) : io unit :=
  fun w =>
    let (fs', r) := os_write (fs w) path text in
    (World fs' (trace w ++ [OpenWrite path text]), r).

(** ** The file processor and the main loop *)

Definition process_file (filepath : pystr) : io bool :=
  try_except
    (content ← read_text filepath;
     let original := content in
     content ← lift (fix_read_by_id_pattern content);
     content ← lift (fix_first_or_default_pattern content);
     if bool_decide (content ≠ original) then
       _ ← write_text filepath content;
       _ ← print (str "Fixed: " ++ filepath);
       mret true
     else
       _ ← print (str "No changes needed: " ++ filepath);
       mret false)
    (fun e =>
       _ ← print (str "Error processing " ++ filepath ++ str ": " ++ exn_str e);
       mret false).

Definition files : list pystr :=
  [str "C:\Code\Durable\src\Test.MySql\MySqlBatchInsertTests.cs";
   str "C:\Code\Durable\src\Test.MySql\MySqlIntegrationTests.cs"].

(** [for file in files: process_file(file)] *)
Fixpoint for_each (l : list pystr) (body : pystr -> io bool) : io unit :=
  match l with
  | [] => mret tt
  | file :: l' => _ ← body file; for_each l' body
  end.

Definition main : io unit := for_each files process_file.

(** The interpreter's exit status: 0 when the script runs to its end, 1 when
    an exception escapes it. *)
Definition exit_status (r : exc unit) : N :=
  match r with
  | Return _ => 0
  | Raise _ => 1
  end.

End Platform.

(** ** A concrete platform, for the examples

    No alphanumeric character beyond ASCII; files in a finite map, a missing
    file raising as [open] does, a write always succeeding. *)

Definition ascii_table : N -> bool := fun _ => false.

Definition disk_read (d : gmap pystr pystr) (path : pystr) : exc pystr :=
  match d !! path with
  | Some text => Return text
  | None => Raise (OSError (str "[Errno 2] No such file or directory: '" ++ path ++ str "'"))
  end.

Definition disk_write (d : gmap pystr pystr) (path text : pystr) : gmap pystr pystr * exc unit :=
  (<[path := text]> d, Return tt).

(** A full disk: [open(path, 'w')] empties the file, and the write raises. *)
Definition full_disk_write (d : gmap pystr pystr) (path text : pystr)
    : gmap pystr pystr * exc unit :=
  (<[path := []]> d, Raise (OSError (str "[Errno 28] No space left on device"))).

(** * The vocabulary of the properties *)

(** [re.search(r, s)]: the groups of the leftmost match, if any. *)
Fixpoint re_search (ua : N -> bool) (r : regex) (s : pystr) : option (gmap nat pystr) :=
  match re_match ua r s with
  | Some (m, _) => Some m
  | None =>
      match s with
      | [] => None
      | _ :: s' => re_search ua r s'
      end
  end.

(** [matches r s g g']: the text [s], as a whole, is an instance of [r], and
    matching it turns the groups [g] into [g']. *)
Fixpoint matches (ua : N -> bool) (r : regex) (s : pystr) (g g' : gmap nat pystr) : Prop :=
  match r with
  | Str l => s = l /\ g' = g
  | Star k => forallb (in_class ua k) s = true /\ g' = g
  | Plus k => s <> [] /\ forallb (in_class ua k) s = true /\ g' = g
  | Cat r1 r2 => exists s1 s2 g1, s = s1 ++ s2 /\ matches ua r1 s1 g g1 /\ matches ua r2 s2 g1 g'
  | Group n r1 => exists g1, matches ua r1 s g g1 /\ g' = <[n := s]> g1
  end.

(** The text [\s+ \w+ \s+ \w+ \s*] that both patterns begin with. *)
Definition declaration (ua : N -> bool) (indent ty sep var gap : pystr) : Prop :=
  indent <> [] /\ forallb is_space indent = true /\
  ty <> [] /\ forallb (is_word ua) ty = true /\
  sep <> [] /\ forallb is_space sep = true /\
  var <> [] /\ forallb (is_word ua) var = true /\
  forallb is_space gap = true.

(** The groups of a match of a pattern with three (four) capture groups. *)
Definition groups3 (whole indent ty var : pystr) : gmap nat pystr :=
  <[0%nat := whole]> (<[3%nat := var]> (<[2%nat := ty]> (<[1%nat := indent]> ∅))).

Definition groups4 (whole indent ty var rhs : pystr) : gmap nat pystr :=
  <[0%nat := whole]> (<[4%nat := rhs]> (<[3%nat := var]> (<[2%nat := ty]> (<[1%nat := indent]> ∅)))).

(** The text before the first [sep] (all of it when there is none), and the
    text after that [sep]. *)
Fixpoint before (sep : N) (s : pystr) : pystr :=
  match s with
  | [] => []
  | x :: s' => if x =? sep then [] else x :: before sep s'
  end.

Fixpoint after (sep : N) (s : pystr) : pystr :=
  match s with
  | [] => []
  | x :: s' => if x =? sep then s' else after sep s'
  end.

(** The two fixes in the order [process_file] applies them. *)
Definition apply_fixes (ua : N -> bool) (content : pystr) : exc pystr :=
  content ← fix_read_by_id_pattern ua content;
  fix_first_or_default_pattern ua content.

(** Drop the leading characters of a class. *)
Fixpoint skip (f : N -> bool) (s : pystr) : pystr :=
  match s with
  | x :: s' => if f x then skip f s' else s
  | [] => []
  end.

(** The text ends with [\s \w+ \s+ \w+ \s*]: read from its end, blanks, a
    word, blanks, a word, and then a blank.  This is what both patterns need
    in front of the ['='] they match. *)
Definition ends_in_declaration (ua : N -> bool) (l : pystr) : bool :=
  match skip (is_word ua) (skip is_space (skip (is_word ua) (skip is_space (rev l)))) with
  | c :: _ => is_space c
  | [] => false
  end.

Fixpoint occurrences (c : N) (s : pystr) : nat :=
  match s with
  | [] => 0
  | x :: s' => if x =? c then S (occurrences c s') else occurrences c s'
  end.

(** A run of class [f] stops at the head of [s]. *)
Definition stops (f : N -> bool) (s : pystr) : Prop :=
  match s with
  | c :: _ => f c = false
  | [] => True
  end.

(** The one ['='] of the text follows ["? name "]: the text a rewriter
    leaves where it replaced a declaration. *)
Definition guarded (ua : N -> bool) (t : pystr) : Prop :=
  exists a var b,
    t = a ++ str "? " ++ var ++ str " " ++ ch "=" :: b /\
    (ch "=" ∉ a) /\ (ch "=" ∉ b) /\ var <> [] /\ forallb (is_word ua) var = true.

(** What one call of [process_file] adds to the trace: the file is opened
    for reading, at most once for writing, and one line is printed. *)
Definition file_outcome (path : pystr) (tr : list event) : Prop :=
  exists mid line,
    tr = OpenRead path :: mid ++ [Print line] /\
    (mid = [] \/ exists text, mid = [OpenWrite path text]) /\
    (line = str "Fixed: " ++ path \/
     line = str "No changes needed: " ++ path \/
     exists e, line = str "Error processing " ++ path ++ str ": " ++ exn_str e).

(** The line [process_file] prints for an exception. *)
Definition error_line (path : pystr) (e : exn) : pystr :=
  str "Error processing " ++ path ++ str ": " ++ exn_str e.

(** [needle in hay] *)
Fixpoint has_infix (needle hay : pystr) : bool :=
  match eat needle hay with
  | Some _ => true
  | None =>
      match hay with
      | [] => false
      | _ :: hay' => has_infix needle hay'
      end
  end.

(** The statements the read-by-id pattern describes:
    [indent ty sep var gap = gap2 await gap3 obj .ReadByIdAsync( args );]. *)
Definition read_by_id_statement (ua : N -> bool) (whole : pystr) : Prop :=
  exists indent ty sep var gap gap2 gap3 obj args,
    whole = indent ++ ty ++ sep ++ var ++ gap ++ str "=" ++ gap2 ++ str "await" ++ gap3
            ++ obj ++ str ".ReadByIdAsync(" ++ args ++ str ");" /\
    declaration ua indent ty sep var gap /\
    forallb is_space gap2 = true /\
    gap3 <> [] /\ forallb is_space gap3 = true /\
    obj <> [] /\ forallb (is_word ua) obj = true /\
    args <> [] /\ (ch ")" ∉ args).

(** The statements the first-or-default pattern describes:
    [indent ty sep var gap = gap2 recv .FirstOrDefault( args );]. *)
Definition first_or_default_statement (ua : N -> bool) (whole : pystr) : Prop :=
  exists indent ty sep var gap gap2 recv args,
    whole = indent ++ ty ++ sep ++ var ++ gap ++ str "=" ++ gap2
            ++ recv ++ str ".FirstOrDefault(" ++ args ++ str ");" /\
    declaration ua indent ty sep var gap /\
    forallb is_space gap2 = true /\
    recv <> [] /\ (ch ";" ∉ recv) /\ (ch ")" ∉ args).

(** The file or files an event opens. *)
Definition opened (ev : event) : list pystr :=
  match ev with
  | OpenRead p => [p]
  | OpenWrite p _ => [p]
  | Print _ => []
  end.

(** * Properties *)

(** ** The matcher against a declarative reading of the patterns *)

Section Matcher.

Variable uni_alnum : N -> bool.

Local Abbreviation in_class := (in_class uni_alnum).
Local Abbreviation is_word := (is_word uni_alnum).
Local Abbreviation run := (run uni_alnum).
Local Abbreviation greedy := (greedy uni_alnum).
Local Abbreviation re_match := (re_match uni_alnum).
Local Abbreviation matches := (matches uni_alnum).
Local Abbreviation declaration := (declaration uni_alnum).

Lemma eat_Some (l s s' : pystr) : eat l s = Some s' <-> s = l ++ s'.
Proof.
  revert s; induction l as [|c l IH]; intros s; simpl.
  - split; [intros [= ->]; reflexivity | intros ->; reflexivity].
  - destruct s as [|x s]; [split; discriminate|].
    destruct (N.eqb_spec x c) as [->|Hne].
    + rewrite IH. split; [intros ->; reflexivity | intros [= ->]; reflexivity].
    + split; [discriminate | intros [= Hx _]; contradiction].
Qed.

Lemma greedy_sound {A} (k : cclass) (s : pystr) (cont : pystr -> option A) (a : A) :
  greedy k s cont = Some a ->
  exists s1 s2, s = s1 ++ s2 /\ forallb (in_class k) s1 = true /\ cont s2 = Some a.
Proof.
  induction s as [|x s IH]; simpl.
  - intros H. exists [], []. auto.
  - destruct (in_class k x) eqn:Hx.
    + destruct (greedy k s cont) as [a'|] eqn:Hg.
      * intros [= ->]. destruct (IH eq_refl) as (s1 & s2 & -> & H1 & H2).
        exists (x :: s1), s2. simpl. rewrite Hx, H1. auto.
      * intros H. exists [], (x :: s). auto.
    + intros H. exists [], (x :: s). auto.
Qed.

Lemma take_match (s1 s2 : pystr) :
  take (length (s1 ++ s2) - length s2) (s1 ++ s2) = s1.
Proof.
  rewrite length_app. replace (length s1 + length s2 - length s2)%nat with (length s1) by lia.
  apply take_app_length.
Qed.

(** Whatever the matcher accepts is an instance of the pattern. *)
Lemma run_sound {A} (r : regex) :
  forall (s : pystr) (g : gmap nat pystr) (cont : pystr -> gmap nat pystr -> option A) (a : A),
    run r s g cont = Some a ->
    exists s1 s2 g', s = s1 ++ s2 /\ matches r s1 g g' /\ cont s2 g' = Some a.
Proof.
  induction r as [l|k|k|r1 IH1 r2 IH2|n r1 IH1]; intros s g cont a; simpl.
  - destruct (eat l s) as [s'|] eqn:He; [|discriminate].
    apply eat_Some in He as ->. intros H. exists l, s', g. auto.
  - intros H. apply greedy_sound in H as (s1 & s2 & -> & H1 & H2).
    exists s1, s2, g. auto.
  - destruct s as [|x s]; [discriminate|].
    destruct (in_class k x) eqn:Hx; [|discriminate].
    intros H. apply greedy_sound in H as (s1 & s2 & -> & H1 & H2).
    exists (x :: s1), s2, g. simpl. rewrite Hx, H1. auto.
  - intros H. apply IH1 in H as (s1 & s2 & g1 & -> & M1 & H).
    apply IH2 in H as (s3 & s4 & g2 & -> & M2 & H).
    exists (s1 ++ s3), s4, g2. rewrite <- app_assoc. split; [reflexivity|].
    split; [|exact H]. exists s1, s3, g1. auto.
  - intros H. apply IH1 in H as (s1 & s2 & g1 & -> & M1 & H).
    rewrite take_match in H. exists s1, s2, (<[n := s1]> g1).
    split; [reflexivity|]. split; [|exact H]. exists g1. auto.
Qed.

Lemma re_match_sound (r : regex) (s rest : pystr) (m : gmap nat pystr) :
  re_match r s = Some (m, rest) ->
  exists whole g, s = whole ++ rest /\ matches r whole ∅ g /\ m = <[0%nat := whole]> g.
Proof.
  unfold re_match. intros H. apply run_sound in H as (s1 & s2 & g' & -> & M & [= <- <-]).
  destruct M as (g1 & M & ->). exists s1, g1. auto.
Qed.

Lemma greedy_complete {A} (k : cclass) (s1 s2 : pystr) (cont : pystr -> option A) (a : A) :
  forallb (in_class k) s1 = true -> cont s2 = Some a ->
  exists a', greedy k (s1 ++ s2) cont = Some a'.
Proof.
  intros H1 H2. induction s1 as [|x s1 IH]; simpl in *.
  - destruct s2 as [|y s2]; simpl; [eauto|].
    destruct (in_class k y); [|eauto].
    destruct (greedy k s2 cont); eauto.
  - apply andb_true_iff in H1 as [-> H1]. destruct (IH H1) as [a' ->]. eauto.
Qed.

(** And the matcher accepts whenever the text begins with an instance of the
    pattern that the rest of the pattern accepts: backtracking tries every
    way to match. *)
Lemma run_complete {A} (r : regex) :
  forall (s1 s2 : pystr) (g g' : gmap nat pystr)
         (cont : pystr -> gmap nat pystr -> option A) (a : A),
    matches r s1 g g' -> cont s2 g' = Some a ->
    exists a', run r (s1 ++ s2) g cont = Some a'.
Proof.
  induction r as [l|k|k|r1 IH1 r2 IH2|n r1 IH1]; intros s1 s2 g g' cont a; simpl.
  - intros [-> ->] H. rewrite (proj2 (eat_Some l (l ++ s2) s2) eq_refl). eauto.
  - intros [H ->] Hc. apply (greedy_complete k s1 s2 (fun s' => cont s' g) a H Hc).
  - intros (Hne & H & ->) Hc. destruct s1 as [|x s1]; [contradiction|].
    simpl in *. apply andb_true_iff in H as [-> H].
    apply (greedy_complete k s1 s2 (fun s' => cont s' g) a H Hc).
  - intros (sa & sb & g1 & -> & M1 & M2) Hc. rewrite <- app_assoc.
    destruct (IH2 _ _ _ _ _ _ M2 Hc) as [a2 H2].
    apply (IH1 sa (sb ++ s2) g g1 _ a2 M1 H2).
  - intros (g1 & M1 & ->) Hc.
    apply (IH1 s1 s2 g g1 _ a M1). rewrite take_match. exact Hc.
Qed.

Lemma re_match_complete (r : regex) (whole rest : pystr) (g : gmap nat pystr) :
  matches r whole ∅ g -> exists m rest', re_match r (whole ++ rest) = Some (m, rest').
Proof.
  intros M. unfold re_match.
  destruct (run_complete (Group 0 r) whole rest ∅ (<[0%nat := whole]> g)
              (fun s' g' => Some (g', s')) (<[0%nat := whole]> g, rest)) as [[m rest'] H].
  - exists g. auto.
  - reflexivity.
  - eauto.
Qed.

Ltac break_match :=
  repeat match goal with
         | H : exists _, _ |- _ => destruct H
         | H : _ /\ _ |- _ => destruct H
         end; subst.

Ltac close_shape :=
  repeat eexists;
  repeat match goal with |- _ /\ _ => split end;
  first [reflexivity | eassumption].

Lemma read_by_id_shape (whole : pystr) (g : gmap nat pystr) :
  matches read_by_id_regex whole ∅ g ->
  exists indent ty sep var gap gap2 gap3 obj args,
    whole = indent ++ ty ++ sep ++ var ++ gap ++ str "=" ++ gap2 ++ str "await" ++ gap3
            ++ obj ++ str ".ReadByIdAsync(" ++ args ++ str ");" /\
    g = <[3%nat := var]> (<[2%nat := ty]> (<[1%nat := indent]> ∅)) /\
    declaration indent ty sep var gap /\
    forallb is_space gap2 = true /\
    args <> [] /\ forallb (in_class (NotChar (ch ")"))) args = true.
Proof.
  unfold read_by_id_regex, declaration. cbn [matches]. intros H. break_match. close_shape.
Qed.

Lemma first_or_default_shape (whole : pystr) (g : gmap nat pystr) :
  matches first_or_default_regex whole ∅ g ->
  exists indent ty sep var gap gap2 recv args,
    let rhs := recv ++ str ".FirstOrDefault(" ++ args ++ str ")" in
    whole = indent ++ ty ++ sep ++ var ++ gap ++ str "=" ++ gap2 ++ rhs ++ str ";" /\
    g = <[4%nat := rhs]> (<[3%nat := var]> (<[2%nat := ty]> (<[1%nat := indent]> ∅))) /\
    declaration indent ty sep var gap /\
    forallb is_space gap2 = true /\
    recv <> [] /\ forallb (in_class (NotChar (ch ";"))) recv = true /\
    forallb (in_class (NotChar (ch ")"))) args = true.
Proof.
  unfold first_or_default_regex, declaration. cbn [matches]. intros H. break_match.
  cbv zeta. close_shape.
Qed.

End Matcher.

(** ** [re.sub]: the scan *)

Section Scan.

Variable uni_alnum : N -> bool.
Variable r : regex.
Variable repl : gmap nat pystr -> exc pystr.

Local Abbreviation re_match := (re_match uni_alnum).
Local Abbreviation re_search := (re_search uni_alnum).
Local Abbreviation sub_from := (sub_from uni_alnum r repl).

Lemma re_search_None (s : pystr) :
  re_search r s = None <-> forall i : nat, re_match r (drop i s) = None.
Proof.
  induction s as [|c s IH]; simpl.
  - destruct (re_match r []) as [[m rest]|] eqn:E.
    + split; [discriminate|]. intros H. specialize (H 0%nat). simpl in H. congruence.
    + split; [|reflexivity]. intros _ i. rewrite drop_nil. exact E.
  - destruct (re_match r (c :: s)) as [[m rest]|] eqn:E.
    + split; [discriminate|]. intros H. specialize (H 0%nat). simpl in H. congruence.
    + rewrite IH. split.
      * intros H [|i]; [exact E | apply H].
      * intros H i. apply (H (S i)).
Qed.

Lemma sub_from_skip (a s : pystr) :
  sub_from (a ++ s) (length a) = sub_from s 0.
Proof. induction a as [|x a IH]; [reflexivity | exact IH]. Qed.

Lemma sub_from_miss (c : N) (s : pystr) :
  re_match r (c :: s) = None ->
  sub_from (c :: s) 0 = o ← sub_from s 0; Return (c :: o).
Proof. intros H. simpl. rewrite H. reflexivity. Qed.

Lemma sub_from_hit (whole rest : pystr) (m : gmap nat pystr) :
  re_match r (whole ++ rest) = Some (m, rest) -> whole <> [] ->
  sub_from (whole ++ rest) 0 = t ← repl m; o ← sub_from rest 0; Return (t ++ o).
Proof.
  intros H Hne. destruct whole as [|c w]; [contradiction|].
  change (sub_from ((c :: w) ++ rest) 0) with
    (match re_match r ((c :: w) ++ rest) with
     | Some (m, rest0) =>
         t ← repl m;
         match (length ((c :: w) ++ rest) - length rest0)%nat with
         | O => o ← sub_from (w ++ rest) 0; Return (t ++ c :: o)
         | S n => o ← sub_from (w ++ rest) n; Return (t ++ o)
         end
     | None => o ← sub_from (w ++ rest) 0; Return (c :: o)
     end).
  rewrite H. simpl length. rewrite length_app.
  replace (S (length w + length rest) - length rest)%nat with (S (length w)) by lia.
  rewrite sub_from_skip. reflexivity.
Qed.

(** Where the pattern matches nowhere, the text comes back as it is. *)
Lemma sub_from_no_match (s : pystr) :
  re_search r s = None -> sub_from s 0 = Return s.
Proof.
  induction s as [|c s IH]; simpl.
  - destruct (re_match r []) as [[m rest]|]; [discriminate | reflexivity].
  - destruct (re_match r (c :: s)) as [[m rest]|]; [discriminate|].
    intros H. rewrite (IH H). reflexivity.
Qed.

(** The scan raises only if the replacement callback does. *)
Lemma sub_from_returns :
  (forall s m rest, re_match r s = Some (m, rest) -> exists t, repl m = Return t) ->
  forall (s : pystr) (skip : nat), exists out, sub_from s skip = Return out.
Proof.
  intros Hrepl. induction s as [|c s IH]; intros skip.
  - destruct skip; simpl; [|eauto].
    destruct (re_match r []) as [[m rest]|] eqn:E; [|eauto].
    destruct (Hrepl _ _ _ E) as [t ->]. simpl. eauto.
  - destruct skip as [|n]; [|apply IH].
    simpl. destruct (re_match r (c :: s)) as [[m rest]|] eqn:E.
    + destruct (Hrepl _ _ _ E) as [t ->]. simpl.
      destruct (S (length s) - length rest)%nat as [|n].
      * destruct (IH 0%nat) as [o ->]. simpl. eauto.
      * destruct (IH n) as [o ->]. simpl. eauto.
    + destruct (IH 0%nat) as [o ->]. simpl. eauto.
Qed.

End Scan.

(** ** The replacement callbacks *)

Lemma split_before (sep : N) (s : pystr) :
  exists t, split sep s = before sep s :: t.
Proof.
  induction s as [|x s [t IH]]; simpl; [eauto|].
  destruct (x =? sep); [eauto|]. rewrite IH. eauto.
Qed.

Lemma split_after (sep : N) (s : pystr) :
  sep ∈ s -> split sep s = before sep s :: split sep (after sep s).
Proof.
  induction s as [|x s IH]; [intros H; inversion H|].
  intros H. simpl. destruct (N.eqb_spec x sep) as [->|Hne]; [reflexivity|].
  apply elem_of_cons in H as [H|H]; [congruence|].
  rewrite (IH H). reflexivity.
Qed.

(** [s.split(sep)[1]] is what lies between the first [sep] and the next. *)
Lemma index_split_1 (sep : N) (s : pystr) :
  sep ∈ s -> index (split sep s) 1 = Return (before sep (after sep s)).
Proof.
  intros H. rewrite (split_after _ _ H).
  destruct (split_before sep (after sep s)) as [t ->]. reflexivity.
Qed.

Lemma before_no_sep (sep : N) (s : pystr) : sep ∉ s -> before sep s = s.
Proof.
  induction s as [|x s IH]; [reflexivity|].
  intros H. apply not_elem_of_cons in H as [Hx Hs]. simpl.
  destruct (N.eqb_spec x sep) as [->|_]; [contradiction|]. rewrite (IH Hs). reflexivity.
Qed.

Lemma before_not_elem (sep : N) (s : pystr) : sep ∉ before sep s.
Proof.
  induction s as [|x s IH]; simpl; [apply not_elem_of_nil|].
  destruct (N.eqb_spec x sep) as [->|Hne]; [apply not_elem_of_nil|].
  apply not_elem_of_cons. auto.
Qed.

Section Callbacks.

Variable uni_alnum : N -> bool.

Local Abbreviation re_match := (re_match uni_alnum).

Lemma groups3_lookup (whole indent ty var : pystr) :
  let m := groups3 whole indent ty var in
  m !! 0%nat = Some whole /\ m !! 1%nat = Some indent /\
  m !! 2%nat = Some ty /\ m !! 3%nat = Some var.
Proof. repeat split. Qed.

Lemma groups4_lookup (whole indent ty var rhs : pystr) :
  let m := groups4 whole indent ty var rhs in
  m !! 0%nat = Some whole /\ m !! 1%nat = Some indent /\
  m !! 2%nat = Some ty /\ m !! 3%nat = Some var /\ m !! 4%nat = Some rhs.
Proof. repeat split. Qed.

Lemma read_by_id_replacer_eq (whole indent ty var : pystr) :
  ch "=" ∈ whole ->
  read_by_id_replacer (groups3 whole indent ty var) =
  Return (indent ++ ty ++ str "? " ++ var ++ str " = await "
          ++ strip (before (ch "=") (after (ch "=") whole))
          ++ [nl] ++ indent ++ str "Assert.NotNull(" ++ var ++ str ");").
Proof.
  intros H. destruct (groups3_lookup whole indent ty var) as (H0 & H1 & H2 & H3).
  unfold read_by_id_replacer, group. rewrite H0, H1, H2, H3.
  cbn [mbind exc_mbind exc_bind]. rewrite (index_split_1 _ _ H). reflexivity.
Qed.

Lemma first_or_default_replacer_eq (whole indent ty var rhs : pystr) :
  first_or_default_replacer (groups4 whole indent ty var rhs) =
  Return (indent ++ ty ++ str "? " ++ var ++ str " = " ++ rhs ++ str ";"
          ++ [nl] ++ indent ++ str "Assert.NotNull(" ++ var ++ str ");").
Proof.
  destruct (groups4_lookup whole indent ty var rhs) as (H0 & H1 & H2 & H3 & H4).
  unfold first_or_default_replacer, group. rewrite H1, H2, H3, H4. reflexivity.
Qed.

End Callbacks.

(** ** Where a match can begin *)

Lemma skip_run (f : N -> bool) (a s : pystr) :
  forallb f a = true -> stops f s -> skip f (a ++ s) = s.
Proof.
  induction a as [|x a IH]; simpl.
  - intros _ H. destruct s as [|c s]; [reflexivity|]. simpl in *. rewrite H. reflexivity.
  - intros H Hs. apply andb_true_iff in H as [-> H]. auto.
Qed.

Lemma stops_run (f g : N -> bool) (b s : pystr) :
  (forall c, g c = true -> f c = false) ->
  b <> [] -> forallb g b = true -> stops f (b ++ s).
Proof.
  intros Hfg Hne H. destruct b as [|c b]; [contradiction|].
  simpl in *. apply andb_true_iff in H as [H _]. auto.
Qed.

Lemma forallb_rev (f : N -> bool) (l : pystr) : forallb f (rev l) = forallb f l.
Proof.
  induction l as [|x l IH]; [reflexivity|].
  simpl. rewrite forallb_app, IH. simpl. rewrite andb_true_r. apply andb_comm.
Qed.

Lemma rev_nonempty (l : pystr) : l <> [] -> rev l <> [].
Proof.
  intros H E. apply H. rewrite <- (rev_involutive l), E. reflexivity.
Qed.

Lemma not_elem_forallb (f : N -> bool) (c : N) (l : pystr) :
  forallb f l = true -> f c = false -> c ∉ l.
Proof.
  intros H Hc Hin. apply list_elem_of_In in Hin.
  rewrite forallb_forall in H. rewrite (H _ Hin) in Hc. discriminate.
Qed.

Lemma occurrences_app (c : N) (a b : pystr) :
  occurrences c (a ++ b) = (occurrences c a + occurrences c b)%nat.
Proof.
  induction a as [|x a IH]; [reflexivity|].
  simpl. destruct (x =? c); rewrite IH; reflexivity.
Qed.

Lemma occurrences_none (c : N) (s : pystr) : occurrences c s = 0%nat <-> c ∉ s.
Proof.
  induction s as [|x s IH]; simpl.
  - split; [intros _; apply not_elem_of_nil | reflexivity].
  - rewrite not_elem_of_cons. destruct (N.eqb_spec x c) as [->|Hne].
    + split; [discriminate | intros [H _]; contradiction].
    + rewrite IH. split; [intros H; split; [congruence | exact H] | intros [_ H]; exact H].
Qed.

(** A text with at most one [sep] has none, or splits around its only one. *)
Lemma occurrences_le_1 (c : N) (s : pystr) :
  (occurrences c s <= 1)%nat ->
  (c ∉ s) \/ (exists l r, s = l ++ c :: r /\ (c ∉ l) /\ (c ∉ r)).
Proof.
  induction s as [|x s IH]; simpl; [intros _; left; apply not_elem_of_nil|].
  destruct (N.eqb_spec x c) as [->|Hne]; intros H.
  - right. exists [], s. repeat split; [apply not_elem_of_nil|].
    apply occurrences_none. lia.
  - destruct (IH H) as [Hs|(l & r & -> & Hl & Hr)].
    + left. apply not_elem_of_cons. split; [congruence | exact Hs].
    + right. exists (x :: l), r. repeat split; [|exact Hr].
      apply not_elem_of_cons. split; [congruence | exact Hl].
Qed.

Lemma lstrip_skip (s : pystr) : lstrip s = skip is_space s.
Proof. induction s as [|x s IH]; [reflexivity|]. simpl. rewrite IH. reflexivity. Qed.

Lemma elem_of_skip (f : N -> bool) (x : N) (s : pystr) : x ∈ skip f s -> x ∈ s.
Proof.
  induction s as [|y s IH]; [auto|]. simpl.
  destruct (f y); [|auto]. intros H. apply elem_of_cons. right. auto.
Qed.

Lemma elem_of_strip (x : N) (s : pystr) : x ∈ strip s -> x ∈ s.
Proof.
  unfold strip, rstrip. rewrite !lstrip_skip. intros H.
  apply list_elem_of_In, in_rev, list_elem_of_In in H.
  apply elem_of_skip in H. apply list_elem_of_In, in_rev, list_elem_of_In in H.
  apply elem_of_skip in H. exact H.
Qed.

Section Declarations.

Variable uni_alnum : N -> bool.

(** No white-space character is alphanumeric: a fact of the Unicode tables. *)
Hypothesis alnum_not_space : forall c, is_space c = true -> uni_alnum c = false.

Local Abbreviation declaration := (declaration uni_alnum).

Lemma space_not_word (c : N) : is_space c = true -> is_word uni_alnum c = false.
Proof.
  intros H. pose proof (alnum_not_space c H) as Hu.
  unfold is_space in H. apply existsb_exists in H as (x & Hin & Hx).
  apply N.eqb_eq in Hx. subst x. unfold is_word, is_alnum. rewrite Hu.
  simpl in Hin. repeat (destruct Hin as [<-|Hin]; [reflexivity|]). destruct Hin.
Qed.

Lemma word_not_space (c : N) : is_word uni_alnum c = true -> is_space c = false.
Proof.
  intros H. destruct (is_space c) eqn:E; [|reflexivity].
  rewrite (space_not_word c E) in H. discriminate.
Qed.

Lemma declaration_ends (p indent ty sep var gap : pystr) :
  declaration indent ty sep var gap ->
  ends_in_declaration uni_alnum (p ++ indent ++ ty ++ sep ++ var ++ gap) = true.
Proof.
  intros (Hi & Si & Ht & Wt & Hs & Ss & Hv & Wv & Sg).
  unfold ends_in_declaration.
  rewrite !rev_app_distr, <- !app_assoc.
  rewrite (skip_run is_space (rev gap));
    [|rewrite forallb_rev; exact Sg
     |apply (stops_run _ (is_word uni_alnum)); [apply word_not_space | apply rev_nonempty, Hv
                                   | rewrite forallb_rev; exact Wv]].
  rewrite (skip_run (is_word uni_alnum) (rev var));
    [|rewrite forallb_rev; exact Wv
     |apply (stops_run _ is_space); [apply space_not_word | apply rev_nonempty, Hs
                                    | rewrite forallb_rev; exact Ss]].
  rewrite (skip_run is_space (rev sep));
    [|rewrite forallb_rev; exact Ss
     |apply (stops_run _ (is_word uni_alnum)); [apply word_not_space | apply rev_nonempty, Ht
                                   | rewrite forallb_rev; exact Wt]].
  rewrite (skip_run (is_word uni_alnum) (rev ty));
    [|rewrite forallb_rev; exact Wt
     |apply (stops_run _ is_space); [apply space_not_word | apply rev_nonempty, Hi
                                    | rewrite forallb_rev; exact Si]].
  pose proof (rev_nonempty _ Hi) as Hr. rewrite <- (forallb_rev _ indent) in Si.
  destruct (rev indent) as [|c l]; [contradiction|].
  simpl in *. apply andb_true_iff in Si as [-> _]. reflexivity.
Qed.

(** A declared name that follows ["? "] has no declaration's type before it. *)
Lemma nullable_not_declaration (a var : pystr) :
  var <> [] -> forallb (is_word uni_alnum) var = true ->
  ends_in_declaration uni_alnum (a ++ str "? " ++ var ++ str " ") = false.
Proof.
  intros Hv Wv. unfold ends_in_declaration.
  rewrite !rev_app_distr, <- !app_assoc.
  change (rev (str " ") ++ rev var ++ rev (str "? ") ++ rev a)
    with ([ch " "] ++ rev var ++ ch " " :: ch "?" :: rev a).
  rewrite (skip_run is_space [ch " "]);
    [|reflexivity
     |apply (stops_run _ (is_word uni_alnum)); [apply word_not_space | apply rev_nonempty, Hv
                                   | rewrite forallb_rev; exact Wv]].
  rewrite (skip_run (is_word uni_alnum) (rev var));
    [|rewrite forallb_rev; exact Wv | reflexivity].
  reflexivity.
Qed.

(** Nor has a declaration that opens the text, with nothing before its type. *)
Lemma opening_not_declaration (ty sep var gap : pystr) :
  ty <> [] -> forallb (is_word uni_alnum) ty = true ->
  sep <> [] -> forallb is_space sep = true ->
  var <> [] -> forallb (is_word uni_alnum) var = true ->
  forallb is_space gap = true ->
  ends_in_declaration uni_alnum (ty ++ sep ++ var ++ gap) = false.
Proof.
  intros Ht Wt Hs Ss Hv Wv Sg. unfold ends_in_declaration.
  rewrite !rev_app_distr, <- !app_assoc.
  rewrite (skip_run is_space (rev gap));
    [|rewrite forallb_rev; exact Sg
     |apply (stops_run _ (is_word uni_alnum)); [apply word_not_space | apply rev_nonempty, Hv
                                   | rewrite forallb_rev; exact Wv]].
  rewrite (skip_run (is_word uni_alnum) (rev var));
    [|rewrite forallb_rev; exact Wv
     |apply (stops_run _ is_space); [apply space_not_word | apply rev_nonempty, Hs
                                    | rewrite forallb_rev; exact Ss]].
  rewrite (skip_run is_space (rev sep));
    [|rewrite forallb_rev; exact Ss
     |rewrite <- (app_nil_r (rev ty));
      apply (stops_run _ (is_word uni_alnum)); [apply word_not_space | apply rev_nonempty, Ht
                                   | rewrite forallb_rev; exact Wt]].
  rewrite <- (app_nil_r (rev ty)).
  rewrite (skip_run (is_word uni_alnum) (rev ty)); [reflexivity | rewrite forallb_rev; exact Wt | exact I].
Qed.

End Declarations.

(** ** Texts with a single ['='] *)

Section OneAssignment.

Variable uni_alnum : N -> bool.
Hypothesis alnum_not_space : forall c, is_space c = true -> uni_alnum c = false.

Variable r : regex.
Variable repl : gmap nat pystr -> exc pystr.

Local Abbreviation re_match := (re_match uni_alnum).
Local Abbreviation re_search := (re_search uni_alnum).
Local Abbreviation sub_from := (sub_from uni_alnum r repl).
Local Abbreviation declaration := (declaration uni_alnum).
Local Abbreviation ends_in_declaration := (ends_in_declaration uni_alnum).
Local Abbreviation guarded := (guarded uni_alnum).

(** What the two rewriters share: a match opens with a declaration and its
    ['='], and is replaced by the declaration made nullable, followed by text
    that has an ['='] only if the match had a second one. *)
Hypothesis match_declares : forall s m rest,
  re_match r s = Some (m, rest) ->
  exists indent ty sep var gap tail out,
    declaration indent ty sep var gap /\
    s = (indent ++ ty ++ sep ++ var ++ gap ++ ch "=" :: tail) ++ rest /\
    repl m = Return (indent ++ ty ++ str "? " ++ var ++ str " " ++ ch "=" :: out) /\
    (ch "=" ∉ tail -> ch "=" ∉ out).

Lemma declaration_no_eq (indent ty sep var gap : pystr) :
  declaration indent ty sep var gap ->
  (ch "=" ∉ indent) /\ (ch "=" ∉ ty) /\ (ch "=" ∉ sep) /\ (ch "=" ∉ var) /\ (ch "=" ∉ gap).
Proof.
  intros (Hi & Si & Ht & Wt & Hs & Ss & Hv & Wv & Sg).
  repeat split; eapply not_elem_forallb; eauto.
Qed.

Lemma no_eq_no_match (t : pystr) : ch "=" ∉ t -> re_search r t = None.
Proof.
  intros Ht. apply re_search_None. intros i.
  destruct (re_match r (drop i t)) as [[m rest]|] eqn:E; [|reflexivity].
  exfalso. apply Ht.
  apply match_declares in E as (indent & ty & sep & var & gap & tail & out & _ & E & _).
  rewrite <- (take_drop i t), E, <- !app_assoc.
  do 6 (apply elem_of_app; right). apply elem_of_cons. left. reflexivity.
Qed.

Lemma no_declaration_no_match (l r' : pystr) :
  ch "=" ∉ l -> ch "=" ∉ r' -> ends_in_declaration l = false ->
  re_search r (l ++ ch "=" :: r') = None.
Proof.
  intros Hl Hr Hd. apply re_search_None. intros i.
  destruct (re_match r (drop i (l ++ ch "=" :: r'))) as [[m rest]|] eqn:E; [|reflexivity].
  exfalso.
  apply match_declares in E as (indent & ty & sep & var & gap & tail & out & D & E & _).
  pose proof (take_drop i (l ++ ch "=" :: r')) as Ht. rewrite E in Ht.
  apply occurrences_none in Hl, Hr.
  pose proof (f_equal (occurrences (ch "=")) Ht) as Ho.
  rewrite !occurrences_app in Ho. cbn [occurrences] in Ho.
  rewrite ?occurrences_app, N.eqb_refl in Ho.
  rewrite <- !app_assoc in Ht. cbn [app] in Ht.
  assert (Hp : ch "=" ∉ take i (l ++ ch "=" :: r') ++ indent ++ ty ++ sep ++ var ++ gap).
  { apply occurrences_none. rewrite !occurrences_app. lia. }
  replace (take i (l ++ ch "=" :: r') ++ indent ++ ty ++ sep ++ var ++ gap ++ ch "=" :: tail ++ rest)
    with ((take i (l ++ ch "=" :: r') ++ indent ++ ty ++ sep ++ var ++ gap) ++ ch "=" :: tail ++ rest)
    in Ht by (rewrite <- !app_assoc; reflexivity).
  apply occurrences_none in Hl.
  apply not_elem_of_app_cons_inv_l in Ht as (Heq & _ & _); [|exact Hl|exact Hp].
  rewrite <- Heq, (declaration_ends _ alnum_not_space _ _ _ _ _ _ D) in Hd. discriminate.
Qed.

(** No match begins at or before an ['='] that no declaration precedes,
    whatever follows it. *)
Lemma no_match_before_eq (l r' : pystr) (i : nat) :
  ch "=" ∉ l -> ends_in_declaration l = false -> (i <= length l)%nat ->
  re_match r (drop i (l ++ ch "=" :: r')) = None.
Proof.
  intros Hl Hd Hi.
  destruct (re_match r (drop i (l ++ ch "=" :: r'))) as [[m rest]|] eqn:E; [|reflexivity].
  exfalso.
  apply match_declares in E as (indent & ty & sep & var & gap & tail & out & D & E & _).
  destruct (declaration_no_eq _ _ _ _ _ D) as (Ni & Nt & Ns & Nv & Ng).
  rewrite drop_app_le in E by exact Hi.
  replace ((indent ++ ty ++ sep ++ var ++ gap ++ ch "=" :: tail) ++ rest)
    with ((indent ++ ty ++ sep ++ var ++ gap) ++ ch "=" :: tail ++ rest)
    in E by (rewrite <- !app_assoc; reflexivity).
  apply not_elem_of_app_cons_inv_l in E as (E & _ & _).
  - rewrite <- (take_drop i l), E, (declaration_ends _ alnum_not_space _ _ _ _ _ _ D) in Hd.
    discriminate.
  - rewrite !not_elem_of_app. auto.
  - intros Hin. apply Hl. rewrite <- (take_drop i l). apply elem_of_app. auto.
Qed.

Lemma guarded_no_match (t : pystr) : guarded t -> re_search r t = None.
Proof.
  intros (a & var & b & -> & Ha & Hb & Hv & Wv).
  replace (a ++ str "? " ++ var ++ str " " ++ ch "=" :: b)
    with ((a ++ str "? " ++ var ++ str " ") ++ ch "=" :: b)
    by (rewrite <- !app_assoc; reflexivity).
  apply no_declaration_no_match; [|exact Hb|apply nullable_not_declaration; auto].
  rewrite !not_elem_of_app. split_and!; [exact Ha| | |].
  - apply (not_elem_forallb (fun c => negb (c =? ch "="))); reflexivity.
  - eapply not_elem_forallb; eauto.
  - apply (not_elem_forallb (fun c => negb (c =? ch "="))); reflexivity.
Qed.

Lemma sub_single (l r' : pystr) :
  ch "=" ∉ l -> ch "=" ∉ r' ->
  re_search r (l ++ ch "=" :: r') = None \/
  exists t', sub_from (l ++ ch "=" :: r') 0 = Return t' /\ guarded t'.
Proof.
  intros Hl Hr. induction l as [|c l IH].
  - left. apply (no_declaration_no_match [] r'); [apply not_elem_of_nil | exact Hr | reflexivity].
  - destruct (re_match r ((c :: l) ++ ch "=" :: r')) as [[m rest]|] eqn:E.
    + right.
      destruct (match_declares _ _ _ E)
        as (indent & ty & sep & var & gap & tail & out & D & Es & Er & Hout).
      destruct (declaration_no_eq _ _ _ _ _ D) as (Ni & Nt & Ns & Nv & Ng).
      assert (Hd : ch "=" ∉ indent ++ ty ++ sep ++ var ++ gap)
        by (rewrite !not_elem_of_app; auto).
      pose proof Es as Es'.
      replace ((indent ++ ty ++ sep ++ var ++ gap ++ ch "=" :: tail) ++ rest)
        with ((indent ++ ty ++ sep ++ var ++ gap) ++ ch "=" :: tail ++ rest)
        in Es' by (rewrite <- !app_assoc; reflexivity).
      apply not_elem_of_app_cons_inv_l in Es' as (_ & _ & Hr'); [|exact Hd|exact Hl].
      subst r'. apply not_elem_of_app in Hr as [Htail Hrest].
      rewrite Es in E |- *.
      rewrite (sub_from_hit _ _ _ _ _ _ E) by (destruct D as (Hi & _); destruct indent; [contradiction|discriminate]).
      rewrite Er, (sub_from_no_match _ _ _ _ (no_eq_no_match _ Hrest)).
      eexists. split; [reflexivity|].
      exists (indent ++ ty), var, (out ++ rest).
      destruct D as (_ & _ & _ & _ & _ & _ & Hv & Wv & _).
      split_and!; [rewrite <- !app_assoc; reflexivity | | |exact Hv|exact Wv].
      * rewrite not_elem_of_app. auto.
      * rewrite not_elem_of_app. auto.
    + apply not_elem_of_cons in Hl as [Hc Hl].
      destruct (IH Hl) as [Hn|(t' & Ht & a & var & b & -> & Ha & Hb & Hv & Wv)].
      * left. simpl in E |- *. rewrite E. exact Hn.
      * right. exists (c :: a ++ str "? " ++ var ++ str " " ++ ch "=" :: b).
        split; [rewrite <- app_comm_cons, (sub_from_miss _ _ _ c (l ++ ch "=" :: r') E), Ht; reflexivity|].
        exists (c :: a), var, b. split_and!; auto.
        apply not_elem_of_cons. auto.
Qed.

(** On a text with at most one ['='] a rewriter finds nothing, or leaves a
    text neither pattern matches again. *)
Lemma sub_at_most_one (t : pystr) :
  (occurrences (ch "=") t <= 1)%nat ->
  re_search r t = None \/ exists t', sub_from t 0 = Return t' /\ guarded t'.
Proof.
  intros H. destruct (occurrences_le_1 _ _ H) as [Hn|(l & r' & -> & Hl & Hr)].
  - left. apply no_eq_no_match, Hn.
  - apply sub_single; assumption.
Qed.

End OneAssignment.

(** ** The two rewriters *)

Section Rewriters.

Variable uni_alnum : N -> bool.

Local Abbreviation re_match := (re_match uni_alnum).
Local Abbreviation re_search := (re_search uni_alnum).
Local Abbreviation declaration := (declaration uni_alnum).
Local Abbreviation fix_read_by_id_pattern := (fix_read_by_id_pattern uni_alnum).
Local Abbreviation fix_first_or_default_pattern := (fix_first_or_default_pattern uni_alnum).

(** A match of the read-by-id pattern: its text and its groups. *)
Lemma read_by_id_match (s rest : pystr) (m : gmap nat pystr) :
  re_match read_by_id_regex s = Some (m, rest) ->
  exists indent ty sep var gap tail,
    let whole := indent ++ ty ++ sep ++ var ++ gap ++ ch "=" :: tail in
    declaration indent ty sep var gap /\
    s = whole ++ rest /\
    m = groups3 whole indent ty var.
Proof.
  intros H. apply re_match_sound in H as (whole & g & -> & M & ->).
  apply read_by_id_shape in M
    as (indent & ty & sep & var & gap & gap2 & gap3 & obj & args & -> & -> & D & _).
  exists indent, ty, sep, var, gap,
    (gap2 ++ str "await" ++ gap3 ++ obj ++ str ".ReadByIdAsync(" ++ args ++ str ");").
  cbv zeta. auto.
Qed.

(** A match of the first-or-default pattern: its text and its groups. *)
Lemma first_or_default_match (s rest : pystr) (m : gmap nat pystr) :
  re_match first_or_default_regex s = Some (m, rest) ->
  exists indent ty sep var gap gap2 rhs,
    let whole := indent ++ ty ++ sep ++ var ++ gap ++ ch "=" :: gap2 ++ rhs ++ str ";" in
    declaration indent ty sep var gap /\
    forallb is_space gap2 = true /\
    s = whole ++ rest /\
    m = groups4 whole indent ty var rhs.
Proof.
  intros H. apply re_match_sound in H as (whole & g & -> & M & ->).
  apply first_or_default_shape in M
    as (indent & ty & sep & var & gap & gap2 & recv & args & M).
  cbv zeta in M. destruct M as (-> & -> & D & G & _).
  exists indent, ty, sep, var, gap, gap2, (recv ++ str ".FirstOrDefault(" ++ args ++ str ")").
  cbv zeta. auto.
Qed.

Lemma eq_in_declared (d tail : pystr) : ch "=" ∈ d ++ ch "=" :: tail.
Proof. apply elem_of_app. right. apply elem_of_cons. left. reflexivity. Qed.

Lemma read_by_id_replacer_returns (s rest : pystr) (m : gmap nat pystr) :
  re_match read_by_id_regex s = Some (m, rest) -> exists t, read_by_id_replacer m = Return t.
Proof.
  intros H. apply read_by_id_match in H as (indent & ty & sep & var & gap & tail & H).
  cbv zeta in H. destruct H as (_ & _ & ->).
  rewrite read_by_id_replacer_eq; [eauto|].
  rewrite !app_assoc. apply eq_in_declared.
Qed.

Lemma first_or_default_replacer_returns (s rest : pystr) (m : gmap nat pystr) :
  re_match first_or_default_regex s = Some (m, rest) ->
  exists t, first_or_default_replacer m = Return t.
Proof.
  intros H. apply first_or_default_match in H as (indent & ty & sep & var & gap & gap2 & rhs & H).
  cbv zeta in H. destruct H as (_ & _ & _ & ->).
  rewrite first_or_default_replacer_eq. eauto.
Qed.

(** Neither rewriter raises: [split("=")[1]] exists in every match. *)
Lemma fix_read_by_id_returns (content : pystr) :
  exists out, fix_read_by_id_pattern content = Return out.
Proof. apply sub_from_returns. intros s m rest. apply read_by_id_replacer_returns. Qed.

Lemma fix_first_or_default_returns (content : pystr) :
  exists out, fix_first_or_default_pattern content = Return out.
Proof. apply sub_from_returns. intros s m rest. apply first_or_default_replacer_returns. Qed.

Lemma apply_fixes_returns (content : pystr) :
  exists out, apply_fixes uni_alnum content = Return out.
Proof.
  unfold apply_fixes.
  destruct (fix_read_by_id_returns content) as [mid ->]. apply fix_first_or_default_returns.
Qed.

End Rewriters.

Section Shared.

Variable uni_alnum : N -> bool.

Local Abbreviation re_match := (re_match uni_alnum).
Local Abbreviation declaration := (declaration uni_alnum).

Lemma not_eq_literal (l : pystr) :
  forallb (fun c => negb (c =? ch "=")) l = true -> ch "=" ∉ l.
Proof. intros H. apply (not_elem_forallb _ _ _ H). reflexivity. Qed.

(** The read-by-id rewriter replaces a declaration by its nullable form, and
    what it writes after the ['='] has no ['='] of its own. *)
Lemma read_by_id_declares (s rest : pystr) (m : gmap nat pystr) :
  re_match read_by_id_regex s = Some (m, rest) ->
  exists indent ty sep var gap tail out,
    declaration indent ty sep var gap /\
    s = (indent ++ ty ++ sep ++ var ++ gap ++ ch "=" :: tail) ++ rest /\
    read_by_id_replacer m = Return (indent ++ ty ++ str "? " ++ var ++ str " " ++ ch "=" :: out) /\
    (ch "=" ∉ tail -> ch "=" ∉ out).
Proof.
  intros H. apply read_by_id_match in H as (indent & ty & sep & var & gap & tail & H).
  cbv zeta in H. destruct H as (D & -> & ->).
  set (whole := indent ++ ty ++ sep ++ var ++ gap ++ ch "=" :: tail).
  exists indent, ty, sep, var, gap, tail,
    (str " await " ++ strip (before (ch "=") (after (ch "=") whole))
     ++ [nl] ++ indent ++ str "Assert.NotNull(" ++ var ++ str ");").
  split_and!; [exact D | reflexivity | |].
  - rewrite read_by_id_replacer_eq; [reflexivity|].
    unfold whole. rewrite !app_assoc. apply eq_in_declared.
  - intros _. destruct D as (_ & Si & _ & _ & _ & _ & _ & Wv & _).
    rewrite !not_elem_of_app. split_and!.
    + apply not_eq_literal. reflexivity.
    + intros Hin. apply elem_of_strip in Hin. exact (before_not_elem _ _ Hin).
    + apply not_eq_literal. reflexivity.
    + eapply not_elem_forallb; [exact Si | reflexivity].
    + apply not_eq_literal. reflexivity.
    + eapply not_elem_forallb; [exact Wv | reflexivity].
    + apply not_eq_literal. reflexivity.
Qed.

(** The first-or-default rewriter does the same, and copies the right-hand
    side of the match. *)
Lemma first_or_default_declares (s rest : pystr) (m : gmap nat pystr) :
  re_match first_or_default_regex s = Some (m, rest) ->
  exists indent ty sep var gap tail out,
    declaration indent ty sep var gap /\
    s = (indent ++ ty ++ sep ++ var ++ gap ++ ch "=" :: tail) ++ rest /\
    first_or_default_replacer m
      = Return (indent ++ ty ++ str "? " ++ var ++ str " " ++ ch "=" :: out) /\
    (ch "=" ∉ tail -> ch "=" ∉ out).
Proof.
  intros H. apply first_or_default_match in H as (indent & ty & sep & var & gap & gap2 & rhs & H).
  cbv zeta in H. destruct H as (D & G & -> & ->).
  exists indent, ty, sep, var, gap, (gap2 ++ rhs ++ str ";"),
    (str " " ++ rhs ++ str ";" ++ [nl] ++ indent ++ str "Assert.NotNull(" ++ var ++ str ");").
  split_and!; [exact D | reflexivity | |].
  - rewrite first_or_default_replacer_eq. reflexivity.
  - intros Ht. apply not_elem_of_app in Ht as [_ Ht]. apply not_elem_of_app in Ht as [Hr _].
    destruct D as (_ & Si & _ & _ & _ & _ & _ & Wv & _).
    rewrite !not_elem_of_app. split_and!.
    + apply not_eq_literal. reflexivity.
    + exact Hr.
    + apply not_eq_literal. reflexivity.
    + apply not_eq_literal. reflexivity.
    + eapply not_elem_forallb; [exact Si | reflexivity].
    + apply not_eq_literal. reflexivity.
    + eapply not_elem_forallb; [exact Wv | reflexivity].
    + apply not_eq_literal. reflexivity.
Qed.

End Shared.

(** ** The file processor *)

Section Processor.

Variable uni_alnum : N -> bool.
Variable FS : Type.
Variable os_read : FS -> pystr -> exc pystr.
Variable os_write : FS -> pystr -> pystr -> FS * exc unit.

Local Abbreviation main := (main uni_alnum FS os_read os_write).
Local Abbreviation world := (world FS).

Ltac io_steps :=
  unfold process_file, try_except, mbind, mret, io_mbind, io_mret, io_bind, io_ret,
    read_text, write_text, print, log, lift;
  cbn [fs trace].

Lemma process_file_read_error (w : world) (path : pystr) (e : exn) :
  os_read (fs FS w) path = Raise e ->
  process_file uni_alnum FS os_read os_write path w =
  (World FS (fs FS w) (trace FS w ++ [OpenRead path; Print (error_line path e)]), Return false).
Proof.
  intros H. io_steps. rewrite H. cbn [fs trace]. rewrite <- app_assoc. reflexivity.
Qed.


Lemma process_file_unchanged (w : world) (path content : pystr) :
  os_read (fs FS w) path = Return content ->
  apply_fixes uni_alnum content = Return content ->
  process_file uni_alnum FS os_read os_write path w =
  (World FS (fs FS w)
     (trace FS w ++ [OpenRead path; Print (str "No changes needed: " ++ path)]),
   Return false).
Proof.
  intros H He. io_steps. rewrite H. unfold apply_fixes in He.
  destruct (fix_read_by_id_pattern uni_alnum content) as [mid|e1];
    cbn [mbind exc_mbind exc_bind] in He; [|discriminate].
  rewrite He. rewrite bool_decide_eq_false_2 by (intros Hne; apply Hne; reflexivity).
  cbn [fs trace]. rewrite <- app_assoc. reflexivity.
Qed.

Lemma process_file_changed (w : world) (path content content' : pystr) :
  os_read (fs FS w) path = Return content ->
  apply_fixes uni_alnum content = Return content' ->
  content' <> content ->
  process_file uni_alnum FS os_read os_write path w =
  match os_write (fs FS w) path content' with
  | (fs', Return _) =>
      (World FS fs' (trace FS w ++ [OpenRead path; OpenWrite path content';
                                    Print (str "Fixed: " ++ path)]), Return true)
  | (fs', Raise e) =>
      (World FS fs' (trace FS w ++ [OpenRead path; OpenWrite path content';
                                    Print (error_line path e)]), Return false)
  end.
Proof.
  intros H He Hne. io_steps. rewrite H. unfold apply_fixes in He.
  destruct (fix_read_by_id_pattern uni_alnum content) as [mid|e1];
    cbn [mbind exc_mbind exc_bind] in He; [|discriminate].
  rewrite He. rewrite bool_decide_eq_true_2 by exact Hne.
  cbn [fs trace]. destruct (os_write (fs FS w) path content') as [fs' [[]|e]]; cbn [fs trace];
    rewrite <- !app_assoc; reflexivity.
Qed.

(** Every call returns a boolean and leaves one of the three outcomes. *)
Lemma process_file_outcome (w : world) (path : pystr) :
  exists w' b tr,
    process_file uni_alnum FS os_read os_write path w = (w', Return b) /\
    trace FS w' = trace FS w ++ tr /\ file_outcome path tr.
Proof.
  destruct (os_read (fs FS w) path) as [content|e] eqn:Hr.
  - destruct (apply_fixes_returns uni_alnum content) as [content' He].
    destruct (decide (content' = content)) as [->|Hne].
    + rewrite (process_file_unchanged _ _ _ Hr He). do 3 eexists.
      split_and!; [reflexivity..|]. exists [], (str "No changes needed: " ++ path).
      split_and!; [reflexivity | left; reflexivity | right; left; reflexivity].
    + rewrite (process_file_changed _ _ _ _ Hr He Hne).
      destruct (os_write (fs FS w) path content') as [fs' [[]|e]]; do 3 eexists;
        (split_and!; [reflexivity..|]).
      * exists [OpenWrite path content'], (str "Fixed: " ++ path).
        split_and!; [reflexivity | right; eexists; reflexivity | left; reflexivity].
      * exists [OpenWrite path content'], (error_line path e).
        split_and!; [reflexivity | right; eexists; reflexivity | right; right; eexists; reflexivity].
  - rewrite (process_file_read_error _ _ _ Hr). do 3 eexists.
    split_and!; [reflexivity..|]. exists [], (error_line path e).
    split_and!; [reflexivity | left; reflexivity | right; right; eexists; reflexivity].
Qed.

Lemma for_each_outcome (l : list pystr) (w : world) :
  exists w' trs,
    for_each FS l (process_file uni_alnum FS os_read os_write) w = (w', Return tt) /\
    trace FS w' = trace FS w ++ concat trs /\
    Forall2 file_outcome l trs.
Proof.
  revert w. induction l as [|path l IH]; intros w.
  - exists w, []. cbn [concat]. rewrite app_nil_r. split_and!; [reflexivity..|constructor].
  - destruct (process_file_outcome w path) as (w1 & b & tr & Hp & Ht & Ho).
    destruct (IH w1) as (w' & trs & Hf & Ht' & Hos).
    exists w', (tr :: trs). split_and!.
    + cbn [for_each]. unfold mbind, io_mbind, io_bind. rewrite Hp. exact Hf.
    + rewrite Ht', Ht. cbn. rewrite app_assoc. reflexivity.
    + constructor; assumption.
Qed.

End Processor.

Lemma sub_from_prefix (ua : N -> bool) (r : regex) (repl : gmap nat pystr -> exc pystr)
    (pre s : pystr) :
  (forall i : nat, (i < length pre)%nat -> re_match ua r (drop i (pre ++ s)) = None) ->
  sub_from ua r repl (pre ++ s) 0 = o ← sub_from ua r repl s 0; Return (pre ++ o).
Proof.
  induction pre as [|c pre IH]; intros H.
  - cbn [app]. destruct (sub_from ua r repl s 0); reflexivity.
  - rewrite <- app_comm_cons, (sub_from_miss ua r repl c (pre ++ s) (H 0%nat ltac:(simpl; lia))).
    rewrite IH by (intros i Hi; apply (H (S i)); simpl; lia).
    destruct (sub_from ua r repl s 0); reflexivity.
Qed.

Lemma groups4_inj (w w' i i' t t' v v' r r' : pystr) :
  groups4 w i t v r = groups4 w' i' t' v' r' ->
  w = w' /\ i = i' /\ t = t' /\ v = v' /\ r = r'.
Proof.
  intros H.
  destruct (groups4_lookup w i t v r) as (A0 & A1 & A2 & A3 & A4).
  destruct (groups4_lookup w' i' t' v' r') as (B0 & B1 & B2 & B3 & B4).
  cbv zeta in *. rewrite H in A0, A1, A2, A3, A4.
  split_and!; congruence.
Qed.

Section AtMostOneAssignment.

Variable uni_alnum : N -> bool.
Hypothesis alnum_not_space : forall c, is_space c = true -> uni_alnum c = false.

Local Abbreviation re_search := (re_search uni_alnum).
Local Abbreviation fix_read_by_id_pattern := (fix_read_by_id_pattern uni_alnum).
Local Abbreviation fix_first_or_default_pattern := (fix_first_or_default_pattern uni_alnum).
Local Abbreviation guarded := (guarded uni_alnum).

Lemma read_by_id_at_most_one (t : pystr) :
  (occurrences (ch "=") t <= 1)%nat ->
  re_search read_by_id_regex t = None \/
  exists t', fix_read_by_id_pattern t = Return t' /\ guarded t'.
Proof.
  apply (sub_at_most_one uni_alnum alnum_not_space). intros s m rest.
  apply read_by_id_declares.
Qed.

Lemma first_or_default_at_most_one (t : pystr) :
  (occurrences (ch "=") t <= 1)%nat ->
  re_search first_or_default_regex t = None \/
  exists t', fix_first_or_default_pattern t = Return t' /\ guarded t'.
Proof.
  apply (sub_at_most_one uni_alnum alnum_not_space). intros s m rest.
  apply first_or_default_declares.
Qed.

Lemma guarded_read_by_id (t : pystr) :
  guarded t -> re_search read_by_id_regex t = None /\ fix_read_by_id_pattern t = Return t.
Proof.
  intros G.
  assert (H : re_search read_by_id_regex t = None).
  { apply (guarded_no_match uni_alnum alnum_not_space _ read_by_id_replacer); [|exact G].
    intros s m rest. apply read_by_id_declares. }
  split; [exact H | apply sub_from_no_match, H].
Qed.

Lemma guarded_first_or_default (t : pystr) :
  guarded t ->
  re_search first_or_default_regex t = None /\ fix_first_or_default_pattern t = Return t.
Proof.
  intros G.
  assert (H : re_search first_or_default_regex t = None).
  { apply (guarded_no_match uni_alnum alnum_not_space _ first_or_default_replacer); [|exact G].
    intros s m rest. apply first_or_default_declares. }
  split; [exact H | apply sub_from_no_match, H].
Qed.

End AtMostOneAssignment.

(** * The specification's claims *)

(** C1 (the code departs from its own comment).  On the line of end-to-end
    scenario 1, [fix_read_by_id_pattern] writes [await] twice: the replacer
    puts the literal ["= await "] in front of the text after the ['='], which
    already begins with [await].  The result is not the documented
    ["    Foo? bar = await repo.ReadByIdAsync(id);"] followed by the assertion
    line. *)
Theorem read_by_id_scenario_doubles_await (ua : N -> bool) :
  fix_read_by_id_pattern ua (str "    Foo bar = await repo.ReadByIdAsync(id);")
  = Return (str "    Foo? bar = await await repo.ReadByIdAsync(id);"
            ++ [nl] ++ str "    Assert.NotNull(bar);") /\
  fix_read_by_id_pattern ua (str "    Foo bar = await repo.ReadByIdAsync(id);")
  <> Return (str "    Foo? bar = await repo.ReadByIdAsync(id);"
             ++ [nl] ++ str "    Assert.NotNull(bar);").
Proof. split; [vm_compute; reflexivity | vm_compute; discriminate]. Qed.

(** C2 as the specification states it fails: a statement on a line of its
    own.  The white space the pattern captures before the type begins with
    the line break, the replacer writes it again after its own line feed,
    and an empty line separates the declaration from the assertion. *)
Lemma first_or_default_repeats_line_break :
  let text := str "{" ++ [nl] ++ str "    Widget w = items.FirstOrDefault();" ++ [nl] ++ str "}" in
  re_match ascii_table first_or_default_regex
    ([nl] ++ str "    Widget w = items.FirstOrDefault();" ++ [nl] ++ str "}")
  = Some (groups4 ([nl] ++ str "    Widget w = items.FirstOrDefault();")
            ([nl] ++ str "    ") (str "Widget") (str "w") (str "items.FirstOrDefault()"),
          [nl] ++ str "}") /\
  fix_first_or_default_pattern ascii_table text
  = Return (str "{" ++ [nl] ++ str "    Widget? w = items.FirstOrDefault();" ++ [nl]
            ++ [nl] ++ str "    Assert.NotNull(w);" ++ [nl] ++ str "}") /\
  fix_first_or_default_pattern ascii_table text
  <> Return (str "{" ++ [nl] ++ str "    Widget? w = items.FirstOrDefault();" ++ [nl]
             ++ str "    Assert.NotNull(w);" ++ [nl] ++ str "}").
Proof.
  cbv zeta. split_and!; [vm_compute; reflexivity.. | vm_compute; discriminate].
Qed.

(** C2, amended.  Where the scan of [fix_first_or_default_pattern] finds
    exactly one match in the text (none beginning in [pre], the match [m] with
    groups [indent], [ty], [var], [rhs], none in [post]), the result is the
    text with [m] replaced by [indent], the declaration with its type followed
    by ['?'] and its right-hand side [rhs] copied as it was matched, a line
    feed, [indent] again and [Assert.NotNull(var);].  The match itself is
    [indent ty sep var gap = gap2 rhs ;], where [indent] is all the white
    space before the type, line breaks included. *)
Theorem first_or_default_rewrites_single_match (ua : N -> bool)
    (pre m post indent ty var rhs : pystr) :
  (forall i : nat, (i < length pre)%nat ->
     re_match ua first_or_default_regex (drop i (pre ++ m ++ post)) = None) ->
  re_match ua first_or_default_regex (m ++ post) = Some (groups4 m indent ty var rhs, post) ->
  re_search ua first_or_default_regex post = None ->
  fix_first_or_default_pattern ua (pre ++ m ++ post)
  = Return (pre ++ (indent ++ ty ++ str "? " ++ var ++ str " = " ++ rhs ++ str ";")
            ++ [nl] ++ (indent ++ str "Assert.NotNull(" ++ var ++ str ");") ++ post) /\
  exists sep gap gap2,
    m = indent ++ ty ++ sep ++ var ++ gap ++ str "=" ++ gap2 ++ rhs ++ str ";" /\
    declaration ua indent ty sep var gap /\ forallb is_space gap2 = true.
Proof.
  intros Hpre Hm Hpost.
  destruct (first_or_default_match ua _ _ _ Hm)
    as (indent' & ty' & sep & var' & gap & gap2 & rhs' & H).
  cbv zeta in H. destruct H as (D & G & Hs & Hg).
  apply app_inv_tail in Hs. apply groups4_inj in Hg as (_ & <- & <- & <- & <-).
  split; [|exists sep, gap, gap2; auto].
  unfold fix_first_or_default_pattern, re_sub.
  rewrite (sub_from_prefix _ _ _ _ _ Hpre).
  rewrite (sub_from_hit _ _ _ _ _ _ Hm)
    by (rewrite Hs; destruct D as (Hi & _); destruct indent; [contradiction|discriminate]).
  rewrite first_or_default_replacer_eq, (sub_from_no_match _ _ _ _ Hpost).
  cbn [mbind exc_mbind exc_bind]. rewrite <- !app_assoc. reflexivity.
Qed.

(** The line of end-to-end scenario 2. *)
Lemma first_or_default_scenario :
  fix_first_or_default_pattern ascii_table (str "    Widget w = items.FirstOrDefault();")
  = Return (str "    Widget? w = items.FirstOrDefault();" ++ [nl] ++ str "    Assert.NotNull(w);").
Proof.
  refine (proj1 (first_or_default_rewrites_single_match ascii_table
                   [] (str "    Widget w = items.FirstOrDefault();") []
                   (str "    ") (str "Widget") (str "w") (str "items.FirstOrDefault()")
                   _ _ _)).
  - intros i Hi. simpl in Hi. lia.
  - vm_compute. reflexivity.
  - vm_compute. reflexivity.
Defined.

(** C3 as the specification states it fails: with a second ['='] inside the
    argument list, what the replacer keeps is neither everything after the
    first ['='] nor that text behind one [await]: it stops at the second
    ['=']. *)
Lemma read_by_id_stops_at_second_eq :
  let whole := str "    Foo bar = await repo.ReadByIdAsync(id = 5);" in
  let m := groups3 whole (str "    ") (str "Foo") (str "bar") in
  re_match ascii_table read_by_id_regex whole = Some (m, []) /\
  strip (after (ch "=") whole) = str "await repo.ReadByIdAsync(id = 5);" /\
  read_by_id_replacer m
  = Return (str "    Foo? bar = await await repo.ReadByIdAsync(id"
            ++ [nl] ++ str "    Assert.NotNull(bar);") /\
  read_by_id_replacer m
  <> Return (str "    Foo? bar = " ++ strip (after (ch "=") whole)
             ++ [nl] ++ str "    Assert.NotNull(bar);") /\
  read_by_id_replacer m
  <> Return (str "    Foo? bar = await " ++ strip (after (ch "=") whole)
             ++ [nl] ++ str "    Assert.NotNull(bar);").
Proof.
  cbv zeta. split_and!; [vm_compute; reflexivity.. | vm_compute; discriminate
                        | vm_compute; discriminate].
Qed.

(** C3, amended.  For every match of the read-by-id pattern, with [whole] its
    text, the replacer returns the nullable declaration, the literal
    ["= await "], then [whole.split("=")[1].strip()]: the part of [whole]
    between its first ['='] and the next one (the end of [whole] when there
    is no other), trimmed; then the assertion line.  Without a second ['=']
    that part is everything after the first. *)
Theorem read_by_id_keeps_first_segment (ua : N -> bool) (s rest : pystr) (m : gmap nat pystr) :
  re_match ua read_by_id_regex s = Some (m, rest) ->
  exists whole indent ty var,
    s = whole ++ rest /\ m = groups3 whole indent ty var /\
    read_by_id_replacer m
    = Return (indent ++ ty ++ str "? " ++ var ++ str " = await "
              ++ strip (before (ch "=") (after (ch "=") whole))
              ++ [nl] ++ indent ++ str "Assert.NotNull(" ++ var ++ str ");") /\
    (ch "=" ∉ after (ch "=") whole ->
     before (ch "=") (after (ch "=") whole) = after (ch "=") whole).
Proof.
  intros H. apply read_by_id_match in H as (indent & ty & sep & var & gap & tail & H).
  cbv zeta in H. destruct H as (D & -> & ->).
  eexists _, indent, ty, var. split_and!; [reflexivity..| |apply before_no_sep].
  apply read_by_id_replacer_eq. rewrite !app_assoc. apply eq_in_declared.
Qed.

Lemma read_by_id_keeps_first_segment_example :
  exists whole indent ty var,
    str "    Foo bar = await repo.ReadByIdAsync(id = 5);" = whole ++ [] /\
    groups3 (str "    Foo bar = await repo.ReadByIdAsync(id = 5);")
      (str "    ") (str "Foo") (str "bar") = groups3 whole indent ty var /\
    read_by_id_replacer
      (groups3 (str "    Foo bar = await repo.ReadByIdAsync(id = 5);")
         (str "    ") (str "Foo") (str "bar"))
    = Return (indent ++ ty ++ str "? " ++ var ++ str " = await "
              ++ strip (before (ch "=") (after (ch "=") whole))
              ++ [nl] ++ indent ++ str "Assert.NotNull(" ++ var ++ str ");") /\
    (ch "=" ∉ after (ch "=") whole ->
     before (ch "=") (after (ch "=") whole) = after (ch "=") whole).
Proof.
  apply (read_by_id_keeps_first_segment ascii_table).
  vm_compute. reflexivity.
Defined.

(** C4.  A file whose text neither pattern matches anywhere: each rewriter
    and both in a row return the text as it is, and [process_file] opens
    the file for reading only, prints ["No changes needed: <path>"] and
    returns [False]; the file system is the one it started from. *)
Theorem no_match_no_change (ua : N -> bool) (FS : Type)
    (os_read : FS -> pystr -> exc pystr) (os_write : FS -> pystr -> pystr -> FS * exc unit)
    (w : world FS) (path content : pystr) :
  os_read (fs FS w) path = Return content ->
  re_search ua read_by_id_regex content = None ->
  re_search ua first_or_default_regex content = None ->
  fix_read_by_id_pattern ua content = Return content /\
  fix_first_or_default_pattern ua content = Return content /\
  process_file ua FS os_read os_write path w
  = (World FS (fs FS w)
       (trace FS w ++ [OpenRead path; Print (str "No changes needed: " ++ path)]),
     Return false).
Proof.
  intros Hr H1 H2.
  pose proof (sub_from_no_match ua _ read_by_id_replacer _ H1) as E1.
  pose proof (sub_from_no_match ua _ first_or_default_replacer _ H2) as E2.
  split_and!; [exact E1 | exact E2 |].
  apply (process_file_unchanged ua FS os_read os_write w path content Hr).
  unfold apply_fixes, fix_read_by_id_pattern, re_sub. rewrite E1. exact E2.
Qed.

Lemma no_match_no_change_example :
  let path := str "Program.cs" in
  let content := str "int x = 5;" ++ [nl] ++ str "return x;" in
  let w := World (gmap pystr pystr) {[ path := content ]} [] in
  fix_read_by_id_pattern ascii_table content = Return content /\
  fix_first_or_default_pattern ascii_table content = Return content /\
  process_file ascii_table _ disk_read disk_write path w
  = (World _ {[ path := content ]}
       [OpenRead path; Print (str "No changes needed: Program.cs")],
     Return false).
Proof.
  cbv zeta.
  refine (no_match_no_change ascii_table (gmap pystr pystr) disk_read disk_write
            (World _ {[ str "Program.cs" := str "int x = 5;" ++ [nl] ++ str "return x;" ]} [])
            (str "Program.cs") (str "int x = 5;" ++ [nl] ++ str "return x;") _ _ _).
  - vm_compute. reflexivity.
  - vm_compute. reflexivity.
  - vm_compute. reflexivity.
Defined.







(** C7.  When reading the file raises (it is missing, unreadable or not
    UTF-8), [process_file] prints ["Error processing <path>: <message>"] and
    returns [False]: a value, no exception. *)
Theorem read_failure_is_reported (ua : N -> bool) (FS : Type)
    (os_read : FS -> pystr -> exc pystr) (os_write : FS -> pystr -> pystr -> FS * exc unit)
    (w : world FS) (path : pystr) (e : exn) :
  os_read (fs FS w) path = Raise e ->
  process_file ua FS os_read os_write path w
  = (World FS (fs FS w)
       (trace FS w ++ [OpenRead path;
                       Print (str "Error processing " ++ path ++ str ": " ++ exn_str e)]),
     Return false).
Proof. apply process_file_read_error. Qed.

Lemma read_failure_example :
  process_file ascii_table _ disk_read disk_write (str "Missing.cs") (World _ ∅ [])
  = (World _ ∅
       [OpenRead (str "Missing.cs");
        Print (str "Error processing Missing.cs: [Errno 2] No such file or directory: 'Missing.cs'")],
     Return false).
Proof.
  refine (read_failure_is_reported ascii_table (gmap pystr pystr) disk_read disk_write
            (World _ ∅ []) (str "Missing.cs")
            (OSError (str "[Errno 2] No such file or directory: 'Missing.cs'")) _).
  vm_compute. reflexivity.
Defined.

(** C8.  Whatever the file system answers, the main loop handles each path
    of the hardcoded list, in order, one outcome per path (read, at most one
    write, one printed line), and runs to its end: exit status 0. *)
Theorem main_runs_every_file (ua : N -> bool) (FS : Type)
    (os_read : FS -> pystr -> exc pystr) (os_write : FS -> pystr -> pystr -> FS * exc unit)
    (w : world FS) :
  exists w' trs,
    main ua FS os_read os_write w = (w', Return tt) /\
    exit_status (snd (main ua FS os_read os_write w)) = 0 /\
    trace FS w' = trace FS w ++ concat trs /\
    Forall2 file_outcome files trs.
Proof.
  unfold main. destruct (for_each_outcome ua FS os_read os_write files w) as (w' & trs & E & T & O).
  exists w', trs. rewrite E. auto.
Qed.



(** C10 as the specification states it fails: a statement of the
    read-by-id shape that opens the text (with a blank before it the pattern
    matches the whole of it) and holds a second declaration in its argument
    list.  The statement is not matched from its start, but it is not left
    unchanged: the rewriter matches the declaration inside. *)
Lemma opening_statement_rewritten_inside :
  let text := str "Foo a = await r.ReadByIdAsync(x, Foo b = await r.ReadByIdAsync(y);" in
  snd <$> re_match ascii_table read_by_id_regex (ch " " :: text) = Some [] /\
  head text = Some (ch "F") /\ is_space (ch "F") = false /\
  re_match ascii_table read_by_id_regex text = None /\
  fix_read_by_id_pattern ascii_table text
  = Return (str "Foo a = await r.ReadByIdAsync(x, Foo? b = await await r.ReadByIdAsync(y);"
            ++ [nl] ++ str " Assert.NotNull(b);") /\
  fix_read_by_id_pattern ascii_table text <> Return text.
Proof.
  cbv zeta. split_and!; [vm_compute; reflexivity.. | vm_compute; discriminate].
Qed.

(** C10, amended.  A text that opens with a declaration [ty sep var gap =]
    with no white space before the type: neither pattern has a match that
    begins in the declaration, at or before its ['=']; each rewriter returns
    the declaration and its ['='] as they are, followed by what it makes of
    the rest; and when the rest holds no other ['='], both rewriters return
    the text unchanged.  The first hypothesis is on the table of alphanumeric
    characters: no white-space character is in it, as in Unicode. *)
Theorem opening_statement_not_matched (ua : N -> bool) (ty sep var gap rhs : pystr) :
  (forall c, is_space c = true -> ua c = false) ->
  ty <> [] -> forallb (is_word ua) ty = true ->
  sep <> [] -> forallb is_space sep = true ->
  var <> [] -> forallb (is_word ua) var = true ->
  forallb is_space gap = true ->
  let decl := ty ++ sep ++ var ++ gap in
  let text := decl ++ ch "=" :: rhs in
  (forall i : nat, (i <= length decl)%nat ->
     re_match ua read_by_id_regex (drop i text) = None /\
     re_match ua first_or_default_regex (drop i text) = None) /\
  fix_read_by_id_pattern ua text
  = (out ← fix_read_by_id_pattern ua rhs; Return (decl ++ ch "=" :: out)) /\
  fix_first_or_default_pattern ua text
  = (out ← fix_first_or_default_pattern ua rhs; Return (decl ++ ch "=" :: out)) /\
  (ch "=" ∉ rhs ->
   fix_read_by_id_pattern ua text = Return text /\
   fix_first_or_default_pattern ua text = Return text).
Proof.
  intros Hua Ht Wt Hs Ss Hv Wv Sg decl text.
  assert (Hl : ch "=" ∉ decl).
  { unfold decl. rewrite !not_elem_of_app. split_and!; eapply not_elem_forallb; eauto. }
  pose proof (opening_not_declaration ua Hua ty sep var gap Ht Wt Hs Ss Hv Wv Sg) as Hd.
  assert (H1 : forall i : nat, (i <= length decl)%nat ->
                 re_match ua read_by_id_regex (drop i text) = None).
  { intros i Hi. apply (no_match_before_eq ua Hua _ read_by_id_replacer); auto.
    intros s m rest. apply read_by_id_declares. }
  assert (H2 : forall i : nat, (i <= length decl)%nat ->
                 re_match ua first_or_default_regex (drop i text) = None).
  { intros i Hi. apply (no_match_before_eq ua Hua _ first_or_default_replacer); auto.
    intros s m rest. apply first_or_default_declares. }
  assert (Ht' : text = (decl ++ [ch "="]) ++ rhs)
    by (unfold text; rewrite <- app_assoc; reflexivity).
  split_and!.
  - intros i Hi. auto.
  - unfold fix_read_by_id_pattern, re_sub. rewrite Ht', sub_from_prefix.
    + destruct (sub_from ua read_by_id_regex read_by_id_replacer rhs 0); [|reflexivity].
      cbn [mbind exc_mbind exc_bind]. rewrite <- app_assoc. reflexivity.
    + intros i Hi. rewrite <- Ht'. apply H1. rewrite length_app in Hi. simpl in Hi. lia.
  - unfold fix_first_or_default_pattern, re_sub. rewrite Ht', sub_from_prefix.
    + destruct (sub_from ua first_or_default_regex first_or_default_replacer rhs 0);
        [|reflexivity].
      cbn [mbind exc_mbind exc_bind]. rewrite <- app_assoc. reflexivity.
    + intros i Hi. rewrite <- Ht'. apply H2. rewrite length_app in Hi. simpl in Hi. lia.
  - intros Hr. split; apply sub_from_no_match.
    + apply (no_declaration_no_match ua Hua _ read_by_id_replacer); auto.
      intros s m rest. apply read_by_id_declares.
    + apply (no_declaration_no_match ua Hua _ first_or_default_replacer); auto.
      intros s m rest. apply first_or_default_declares.
Qed.

Lemma opening_statement_example :
  let decl := str "Foo" ++ str " " ++ str "bar" ++ str " " in
  let rhs := str " await repo.ReadByIdAsync(id);" in
  let text := decl ++ ch "=" :: rhs in
  (forall i : nat, (i <= length decl)%nat ->
     re_match ascii_table read_by_id_regex (drop i text) = None /\
     re_match ascii_table first_or_default_regex (drop i text) = None) /\
  fix_read_by_id_pattern ascii_table text
  = (out ← fix_read_by_id_pattern ascii_table rhs; Return (decl ++ ch "=" :: out)) /\
  fix_first_or_default_pattern ascii_table text
  = (out ← fix_first_or_default_pattern ascii_table rhs; Return (decl ++ ch "=" :: out)) /\
  (ch "=" ∉ rhs ->
   fix_read_by_id_pattern ascii_table text = Return text /\
   fix_first_or_default_pattern ascii_table text = Return text).
Proof.
  apply (opening_statement_not_matched ascii_table
           (str "Foo") (str " ") (str "bar") (str " ") (str " await repo.ReadByIdAsync(id);")).
  - intros c _. reflexivity.
  - discriminate.
  - reflexivity.
  - discriminate.
  - reflexivity.
  - discriminate.
  - reflexivity.
  - reflexivity.
Defined.

(** Neither rewriter raises, whatever the text: every match has its groups,
    and holds the ['='] that [split("=")[1]] needs. *)
Theorem rewriters_never_raise (ua : N -> bool) (content : pystr) :
  (exists out, fix_read_by_id_pattern ua content = Return out) /\
  (exists out, fix_first_or_default_pattern ua content = Return out) /\
  (exists out, apply_fixes ua content = Return out).
Proof.
  split_and!;
    [apply fix_read_by_id_returns | apply fix_first_or_default_returns | apply apply_fixes_returns].
Qed.

(** The write is inside the [try] block as well: when it raises,
    [process_file] reports the error in the same way and returns [False], and
    the file system is what the failed write left. *)
Theorem write_failure_is_reported (ua : N -> bool) (FS : Type)
    (os_read : FS -> pystr -> exc pystr) (os_write : FS -> pystr -> pystr -> FS * exc unit)
    (w : world FS) (path content content' : pystr) (fs' : FS) (e : exn) :
  os_read (fs FS w) path = Return content ->
  apply_fixes ua content = Return content' ->
  content' <> content ->
  os_write (fs FS w) path content' = (fs', Raise e) ->
  process_file ua FS os_read os_write path w
  = (World FS fs'
       (trace FS w ++ [OpenRead path; OpenWrite path content';
                       Print (str "Error processing " ++ path ++ str ": " ++ exn_str e)]),
     Return false).
Proof.
  intros Hr Hf Hne Hw.
  rewrite (process_file_changed ua FS os_read os_write w path content content' Hr Hf Hne), Hw.
  reflexivity.
Qed.

Lemma write_failure_example :
  let path := str "Test.cs" in
  let content := str "    Widget w = items.FirstOrDefault();" in
  let content' := str "    Widget? w = items.FirstOrDefault();" ++ [nl]
                  ++ str "    Assert.NotNull(w);" in
  process_file ascii_table _ disk_read full_disk_write path (World _ {[ path := content ]} [])
  = (World _ {[ path := [] ]}
       [OpenRead path; OpenWrite path content';
        Print (str "Error processing Test.cs: [Errno 28] No space left on device")],
     Return false).
Proof.
  cbv zeta.
  refine (write_failure_is_reported ascii_table (gmap pystr pystr) disk_read full_disk_write
            (World _ {[ str "Test.cs" := str "    Widget w = items.FirstOrDefault();" ]} [])
            (str "Test.cs") (str "    Widget w = items.FirstOrDefault();")
            (str "    Widget? w = items.FirstOrDefault();" ++ [nl] ++ str "    Assert.NotNull(w);")
            {[ str "Test.cs" := [] ]}
            (OSError (str "[Errno 28] No space left on device")) _ _ _ _).
  - vm_compute. reflexivity.
  - vm_compute. reflexivity.
  - vm_compute. discriminate.
  - vm_compute. reflexivity.
Defined.

Lemma before_declared (sep : N) (d tail : pystr) :
  sep ∉ d -> before sep (d ++ sep :: tail) = d.
Proof.
  induction d as [|x d IH]; intros H; simpl.
  - rewrite N.eqb_refl. reflexivity.
  - apply not_elem_of_cons in H as [Hx Hd].
    destruct (N.eqb_spec x sep) as [->|_]; [contradiction|]. rewrite (IH Hd). reflexivity.
Qed.

(** What keeps a rewritten declaration from being rewritten again: in any
    text, however many ['='] it has, no match of either pattern takes as its
    ['='] one that stands behind ["? name "], the form both replacers give
    the declarations they rewrite.  The first hypothesis is on the table of
    alphanumeric characters: no white-space character is in it. *)
Theorem nullable_declaration_not_rematched (ua : N -> bool) (a var b : pystr) (i : nat)
    (m : gmap nat pystr) (rest whole : pystr) :
  (forall c, is_space c = true -> ua c = false) ->
  var <> [] -> forallb (is_word ua) var = true ->
  let t := (a ++ str "? " ++ var ++ str " ") ++ ch "=" :: b in
  re_match ua read_by_id_regex (drop i t) = Some (m, rest) \/
  re_match ua first_or_default_regex (drop i t) = Some (m, rest) ->
  m !! 0%nat = Some whole ->
  (i + length (before (ch "=") whole))%nat <> length (a ++ str "? " ++ var ++ str " ").
Proof.
  intros Hua Hv Wv t Hm Hw Hpos.
  assert (exists indent ty sep var' gap tail,
            declaration ua indent ty sep var' gap /\
            drop i t = (indent ++ ty ++ sep ++ var' ++ gap ++ ch "=" :: tail) ++ rest /\
            whole = indent ++ ty ++ sep ++ var' ++ gap ++ ch "=" :: tail)
    as (indent & ty & sep & var' & gap & tail & D & Hd & ->).
  { destruct Hm as [Hm|Hm].
    - apply read_by_id_match in Hm as (indent & ty & sep & var' & gap & tail & Hm).
      cbv zeta in Hm. destruct Hm as (D & Hd & ->).
      destruct (groups3_lookup (indent ++ ty ++ sep ++ var' ++ gap ++ ch "=" :: tail)
                  indent ty var') as (H0 & _).
      cbv zeta in H0. rewrite H0 in Hw. injection Hw as <-.
      exists indent, ty, sep, var', gap, tail. auto.
    - apply first_or_default_match in Hm as (indent & ty & sep & var' & gap & gap2 & rhs & Hm).
      cbv zeta in Hm. destruct Hm as (D & _ & Hd & ->).
      destruct (groups4_lookup
                  (indent ++ ty ++ sep ++ var' ++ gap ++ ch "=" :: gap2 ++ rhs ++ str ";")
                  indent ty var' rhs) as (H0 & _).
      cbv zeta in H0. rewrite H0 in Hw. injection Hw as <-.
      exists indent, ty, sep, var', gap, (gap2 ++ rhs ++ str ";"). auto. }
  set (d := indent ++ ty ++ sep ++ var' ++ gap) in *.
  assert (Nd : ch "=" ∉ d).
  { destruct D as (_ & Si & _ & Wt & _ & Ss & _ & Wv' & Sg).
    unfold d. rewrite !not_elem_of_app. split_and!; eapply not_elem_forallb; eauto. }
  replace (indent ++ ty ++ sep ++ var' ++ gap ++ ch "=" :: tail) with (d ++ ch "=" :: tail)
    in Hpos, Hd by (unfold d; rewrite <- !app_assoc; reflexivity).
  rewrite before_declared in Hpos by exact Nd.
  set (l := a ++ str "? " ++ var ++ str " ") in *.
  assert (Hi : (i <= length l)%nat) by lia.
  unfold t in Hd. rewrite drop_app_le in Hd by exact Hi.
  rewrite <- app_assoc in Hd.
  assert (Hl : l = take i l ++ d).
  { rewrite <- (take_drop i l) at 1. f_equal.
    apply (f_equal (take (length d))) in Hd.
    rewrite take_app_length in Hd. rewrite <- Hd.
    rewrite take_app_ge by (rewrite length_drop; lia).
    rewrite length_drop. replace (length d - (length l - i))%nat with 0%nat by lia.
    rewrite take_0, app_nil_r. reflexivity. }
  pose proof (nullable_not_declaration ua Hua a var Hv Wv) as Hn.
  fold l in Hn. rewrite Hl in Hn. unfold d in Hn.
  rewrite (declaration_ends ua Hua _ _ _ _ _ _ D) in Hn. discriminate.
Qed.

Lemma nullable_declaration_example :
  (15 + length (before (ch "=")
                  (str " Bar b = items.FirstOrDefault();")))%nat
  <> length (str "    Foo" ++ str "? " ++ str "f" ++ str " ").
Proof.
  refine (nullable_declaration_not_rematched ascii_table
            (str "    Foo") (str "f") (str " a; Bar b = items.FirstOrDefault();") 15
            (groups4 (str " Bar b = items.FirstOrDefault();")
               (str " ") (str "Bar") (str "b") (str "items.FirstOrDefault()"))
            [] (str " Bar b = items.FirstOrDefault();") _ _ _ _ _).
  - intros c _. reflexivity.
  - discriminate.
  - reflexivity.
  - right. vm_compute. reflexivity.
  - vm_compute. reflexivity.
Defined.

(** * Further properties of the script *)

(** ** How the scan composes *)

Lemma has_infix_app (needle a b : pystr) : has_infix needle (a ++ needle ++ b) = true.
Proof.
  induction a as [|x a IH]; simpl.
  - destruct (needle ++ b) as [|y l] eqn:E; simpl;
      rewrite <- E, (proj2 (eat_Some needle (needle ++ b) b) eq_refl); reflexivity.
  - rewrite IH. destruct (eat needle (x :: a ++ needle ++ b)); reflexivity.
Qed.

Lemma has_infix_drop (needle hay : pystr) (i : nat) :
  has_infix needle (drop i hay) = true -> has_infix needle hay = true.
Proof.
  revert hay. induction i as [|i IH]; intros hay; [rewrite drop_0; auto|].
  destruct hay as [|x hay]; [auto|]. simpl. intros H.
  rewrite (IH _ H). destruct (eat needle (x :: hay)); reflexivity.
Qed.

(** The scan up to and through its first match: the text before the match
    is copied, the match is replaced, and what follows is scanned as if it
    stood alone. *)
Lemma sub_from_first_match (ua : N -> bool) (r : regex) (repl : gmap nat pystr -> exc pystr)
    (pre m post : pystr) (g : gmap nat pystr) :
  (forall i : nat, (i < length pre)%nat -> re_match ua r (drop i (pre ++ m ++ post)) = None) ->
  re_match ua r (m ++ post) = Some (g, post) -> m <> [] ->
  sub_from ua r repl (pre ++ m ++ post) 0
  = t ← repl g; o ← sub_from ua r repl post 0; Return (pre ++ t ++ o).
Proof.
  intros Hpre Hm Hne.
  rewrite (sub_from_prefix _ _ _ _ _ Hpre), (sub_from_hit _ _ _ _ _ _ Hm Hne).
  destruct (repl g); [|reflexivity]. cbn [mbind exc_mbind exc_bind].
  destruct (sub_from ua r repl post 0); reflexivity.
Qed.

Lemma groups3_inj (w w' i i' t t' v v' : pystr) :
  groups3 w i t v = groups3 w' i' t' v' -> w = w' /\ i = i' /\ t = t' /\ v = v'.
Proof.
  intros H.
  destruct (groups3_lookup w i t v) as (A0 & A1 & A2 & A3).
  destruct (groups3_lookup w' i' t' v') as (B0 & B1 & B2 & B3).
  cbv zeta in *. rewrite H in A0, A1, A2, A3.
  split_and!; congruence.
Qed.

(** The read-by-id rewriter on a text with any number of matches, one match
    at a time: the text before the first match is kept, the match becomes the
    nullable declaration, ["= await "], the text between the match's first
    and second ['='] trimmed, a line feed, the captured white space and the
    assertion; the text after the match is rewritten on its own. *)
Theorem read_by_id_rewrites_first_match (ua : N -> bool) (pre m post indent ty var : pystr) :
  (forall i : nat, (i < length pre)%nat ->
     re_match ua read_by_id_regex (drop i (pre ++ m ++ post)) = None) ->
  re_match ua read_by_id_regex (m ++ post) = Some (groups3 m indent ty var, post) ->
  fix_read_by_id_pattern ua (pre ++ m ++ post)
  = (out ← fix_read_by_id_pattern ua post;
     Return (pre ++ (indent ++ ty ++ str "? " ++ var ++ str " = await "
                     ++ strip (before (ch "=") (after (ch "=") m)))
             ++ [nl] ++ (indent ++ str "Assert.NotNull(" ++ var ++ str ");") ++ out)).
Proof.
  intros Hpre Hm.
  destruct (read_by_id_match ua _ _ _ Hm) as (indent' & ty' & sep & var' & gap & tail & H).
  cbv zeta in H. destruct H as (D & Hs & Hg).
  apply app_inv_tail in Hs. apply groups3_inj in Hg as (_ & <- & <- & <-).
  unfold fix_read_by_id_pattern, re_sub.
  rewrite (sub_from_first_match _ _ _ _ _ _ _ Hpre Hm)
    by (rewrite Hs; destruct D as (Hi & _); destruct indent; [contradiction|discriminate]).
  rewrite read_by_id_replacer_eq by (rewrite Hs, !app_assoc; apply eq_in_declared).
  cbn [mbind exc_mbind exc_bind].
  destruct (sub_from ua read_by_id_regex read_by_id_replacer post 0); [|reflexivity].
  cbn [mbind exc_mbind exc_bind]. rewrite <- !app_assoc. reflexivity.
Qed.

Lemma read_by_id_two_statements :
  fix_read_by_id_pattern ascii_table
    (str "{" ++ (str " A a = await r.ReadByIdAsync(x);") ++ str " B b = await r.ReadByIdAsync(y); }")
  = Return (str "{ A? a = await await r.ReadByIdAsync(x);" ++ [nl] ++ str " Assert.NotNull(a);"
            ++ str " B? b = await await r.ReadByIdAsync(y);" ++ [nl] ++ str " Assert.NotNull(b); }").
Proof.
  rewrite (read_by_id_rewrites_first_match ascii_table
             (str "{") (str " A a = await r.ReadByIdAsync(x);")
             (str " B b = await r.ReadByIdAsync(y); }") (str " ") (str "A") (str "a")).
  - vm_compute. reflexivity.
  - intros i Hi. destruct i as [|i]; [vm_compute; reflexivity | simpl in Hi; lia].
  - vm_compute. reflexivity.
Defined.

(** The same for the first-or-default rewriter, whose replacement copies the
    captured right-hand side. *)
Theorem first_or_default_rewrites_first_match (ua : N -> bool)
    (pre m post indent ty var rhs : pystr) :
  (forall i : nat, (i < length pre)%nat ->
     re_match ua first_or_default_regex (drop i (pre ++ m ++ post)) = None) ->
  re_match ua first_or_default_regex (m ++ post) = Some (groups4 m indent ty var rhs, post) ->
  fix_first_or_default_pattern ua (pre ++ m ++ post)
  = (out ← fix_first_or_default_pattern ua post;
     Return (pre ++ (indent ++ ty ++ str "? " ++ var ++ str " = " ++ rhs ++ str ";")
             ++ [nl] ++ (indent ++ str "Assert.NotNull(" ++ var ++ str ");") ++ out)).
Proof.
  intros Hpre Hm.
  destruct (first_or_default_match ua _ _ _ Hm)
    as (indent' & ty' & sep & var' & gap & gap2 & rhs' & H).
  cbv zeta in H. destruct H as (D & G & Hs & Hg).
  apply app_inv_tail in Hs. apply groups4_inj in Hg as (_ & <- & <- & <- & <-).
  unfold fix_first_or_default_pattern, re_sub.
  rewrite (sub_from_first_match _ _ _ _ _ _ _ Hpre Hm)
    by (rewrite Hs; destruct D as (Hi & _); destruct indent; [contradiction|discriminate]).
  rewrite first_or_default_replacer_eq.
  cbn [mbind exc_mbind exc_bind].
  destruct (sub_from ua first_or_default_regex first_or_default_replacer post 0); [|reflexivity].
  cbn [mbind exc_mbind exc_bind]. rewrite <- !app_assoc. reflexivity.
Qed.

Lemma first_or_default_two_statements :
  fix_first_or_default_pattern ascii_table
    (str "{" ++ (str " A a = xs.FirstOrDefault();") ++ str " B b = ys.FirstOrDefault(p); }")
  = Return (str "{ A? a = xs.FirstOrDefault();" ++ [nl] ++ str " Assert.NotNull(a);"
            ++ str " B? b = ys.FirstOrDefault(p);" ++ [nl] ++ str " Assert.NotNull(b); }").
Proof.
  rewrite (first_or_default_rewrites_first_match ascii_table
             (str "{") (str " A a = xs.FirstOrDefault();")
             (str " B b = ys.FirstOrDefault(p); }")
             (str " ") (str "A") (str "a") (str "xs.FirstOrDefault()")).
  - vm_compute. reflexivity.
  - intros i Hi. destruct i as [|i]; [vm_compute; reflexivity | simpl in Hi; lia].
  - vm_compute. reflexivity.
Defined.

(** ** What the rewriters leave alone *)

Lemma has_infix_inside (needle a b c : pystr) :
  has_infix needle ((a ++ needle ++ b) ++ c) = true.
Proof. rewrite <- !app_assoc. apply has_infix_app. Qed.

(** A text that does not contain [".ReadByIdAsync("] comes back from the
    read-by-id rewriter as it is. *)
Theorem read_by_id_needs_method_name (ua : N -> bool) (text : pystr) :
  has_infix (str ".ReadByIdAsync(") text = false ->
  fix_read_by_id_pattern ua text = Return text.
Proof.
  intros H. apply sub_from_no_match, re_search_None. intros i.
  destruct (re_match ua read_by_id_regex (drop i text)) as [[m rest]|] eqn:E; [|reflexivity].
  exfalso. apply re_match_sound in E as (whole & g & Hd & M & _).
  apply read_by_id_shape in M
    as (indent & ty & sep & var & gap & gap2 & gap3 & obj & args & -> & _).
  assert (Hin : has_infix (str ".ReadByIdAsync(") (drop i text) = true).
  { rewrite Hd.
    replace (indent ++ ty ++ sep ++ var ++ gap ++ str "=" ++ gap2 ++ str "await" ++ gap3
             ++ obj ++ str ".ReadByIdAsync(" ++ args ++ str ");")
      with ((indent ++ ty ++ sep ++ var ++ gap ++ str "=" ++ gap2 ++ str "await" ++ gap3 ++ obj)
            ++ str ".ReadByIdAsync(" ++ (args ++ str ");"))
      by (rewrite <- !app_assoc; reflexivity).
    apply has_infix_inside. }
  apply has_infix_drop in Hin. congruence.
Qed.

Lemma read_by_id_needs_method_name_example :
  fix_read_by_id_pattern ascii_table (str "    Foo bar = await repo.ReadAsync(id);")
  = Return (str "    Foo bar = await repo.ReadAsync(id);").
Proof.
  apply (read_by_id_needs_method_name ascii_table (str "    Foo bar = await repo.ReadAsync(id);")).
  vm_compute. reflexivity.
Defined.

(** A text that does not contain [".FirstOrDefault("] comes back from the
    first-or-default rewriter as it is. *)
Theorem first_or_default_needs_method_name (ua : N -> bool) (text : pystr) :
  has_infix (str ".FirstOrDefault(") text = false ->
  fix_first_or_default_pattern ua text = Return text.
Proof.
  intros H. apply sub_from_no_match, re_search_None. intros i.
  destruct (re_match ua first_or_default_regex (drop i text)) as [[m rest]|] eqn:E;
    [|reflexivity].
  exfalso. apply re_match_sound in E as (whole & g & Hd & M & _).
  apply first_or_default_shape in M
    as (indent & ty & sep & var & gap & gap2 & recv & args & M).
  cbv zeta in M. destruct M as (-> & _).
  assert (Hin : has_infix (str ".FirstOrDefault(") (drop i text) = true).
  { rewrite Hd.
    replace (indent ++ ty ++ sep ++ var ++ gap ++ str "=" ++ gap2
             ++ (recv ++ str ".FirstOrDefault(" ++ args ++ str ")") ++ str ";")
      with ((indent ++ ty ++ sep ++ var ++ gap ++ str "=" ++ gap2 ++ recv)
            ++ str ".FirstOrDefault(" ++ (args ++ str ")" ++ str ";"))
      by (rewrite <- !app_assoc; reflexivity).
    apply has_infix_inside. }
  apply has_infix_drop in Hin. congruence.
Qed.

Lemma first_or_default_needs_method_name_example :
  fix_first_or_default_pattern ascii_table (str "    Widget w = items.First();")
  = Return (str "    Widget w = items.First();").
Proof.
  apply (first_or_default_needs_method_name ascii_table (str "    Widget w = items.First();")).
  vm_compute. reflexivity.
Defined.

(** ** What the patterns accept *)

Lemma not_char_run (ua : N -> bool) (c : N) (l : pystr) :
  forallb (in_class ua (NotChar c)) l = true <-> c ∉ l.
Proof.
  induction l as [|x l IH]; simpl.
  - split; [intros _; apply not_elem_of_nil | reflexivity].
  - rewrite andb_true_iff, IH, not_elem_of_cons.
    destruct (N.eqb_spec x c) as [->|Hne]; simpl.
    + split; [intros [[=] _] | intros [H _]; contradiction].
    + split; [intros [_ H]; split; [congruence | exact H] | intros [_ H]; auto].
Qed.

Ltac open_match :=
  repeat match goal with
         | H : exists _, _ |- _ => destruct H
         | H : _ /\ _ |- _ => destruct H
         end; subst.

Ltac build_match :=
  repeat match goal with
         | |- exists _, _ => eexists
         | |- _ /\ _ => split
         | |- _ = _ => reflexivity
         | |- _ => assumption
         end.

Lemma read_by_id_instances (ua : N -> bool) (whole : pystr) :
  (exists g, matches ua read_by_id_regex whole ∅ g) <-> read_by_id_statement ua whole.
Proof.
  unfold read_by_id_statement, read_by_id_regex, declaration. split.
  - intros [g H]. cbn [matches] in H. open_match.
    match goal with H : forallb (in_class ua (NotChar _)) _ = true |- _ =>
      apply not_char_run in H end.
    build_match.
  - intros (indent & ty & sep & var & gap & gap2 & gap3 & obj & args & -> & D & G2 & N3 & G3
            & No & Wo & Na & Pa).
    destruct D as (Ni & Si & Nt & Wt & Ns & Ss & Nv & Wv & Sg).
    apply (not_char_run ua) in Pa.
    cbn [matches]. build_match.
Qed.

Lemma first_or_default_instances (ua : N -> bool) (whole : pystr) :
  (exists g, matches ua first_or_default_regex whole ∅ g) <-> first_or_default_statement ua whole.
Proof.
  unfold first_or_default_statement, first_or_default_regex, declaration. split.
  - intros [g H]. cbn [matches] in H. open_match.
    repeat match goal with H : forallb (in_class ua (NotChar _)) _ = true |- _ =>
      apply not_char_run in H end.
    rewrite <- !app_assoc. build_match.
  - intros (indent & ty & sep & var & gap & gap2 & recv & args & -> & D & G2 & Nr & Pr & Pa).
    destruct D as (Ni & Si & Nt & Wt & Ns & Ss & Nv & Wv & Sg).
    apply (not_char_run ua) in Pr, Pa.
    replace (indent ++ ty ++ sep ++ var ++ gap ++ str "=" ++ gap2
             ++ recv ++ str ".FirstOrDefault(" ++ args ++ str ");")
      with (indent ++ ty ++ sep ++ var ++ gap ++ str "=" ++ gap2
            ++ (recv ++ str ".FirstOrDefault(" ++ args ++ str ")") ++ str ";")
      by (rewrite <- !app_assoc; reflexivity).
    cbn [matches]. build_match.
Qed.

(** The read-by-id pattern matches at the head of a text exactly when the
    text begins with a statement of the shape: white space, a word, white
    space, a word, optional white space, ['='], optional white space,
    [await], white space, a word, [.ReadByIdAsync(], one or more characters
    other than [)], and [);]. *)
Theorem read_by_id_accepts (ua : N -> bool) (s : pystr) :
  (exists m rest, re_match ua read_by_id_regex s = Some (m, rest)) <->
  (exists whole rest, s = whole ++ rest /\ read_by_id_statement ua whole).
Proof.
  split.
  - intros (m & rest & H). apply re_match_sound in H as (whole & g & -> & M & _).
    exists whole, rest. split; [reflexivity|]. apply read_by_id_instances. eauto.
  - intros (whole & rest & -> & H). apply read_by_id_instances in H as [g M].
    apply (re_match_complete ua _ whole rest g M).
Qed.

(** The first-or-default pattern matches at the head of a text exactly when
    the text begins with: white space, a word, white space, a word, optional
    white space, ['='], optional white space, one or more characters other
    than [;], [.FirstOrDefault(], any characters other than [)], and [);]. *)
Theorem first_or_default_accepts (ua : N -> bool) (s : pystr) :
  (exists m rest, re_match ua first_or_default_regex s = Some (m, rest)) <->
  (exists whole rest, s = whole ++ rest /\ first_or_default_statement ua whole).
Proof.
  split.
  - intros (m & rest & H). apply re_match_sound in H as (whole & g & -> & M & _).
    exists whole, rest. split; [reflexivity|]. apply first_or_default_instances. eauto.
  - intros (whole & rest & -> & H). apply first_or_default_instances in H as [g M].
    apply (re_match_complete ua _ whole rest g M).
Qed.

(** ** Calls the read-by-id pattern passes over *)

Section Calls.

Variable uni_alnum : N -> bool.
Hypothesis alnum_not_space : forall c, is_space c = true -> uni_alnum c = false.

(** Read from the left, the text between the ['='] and the argument list
    splits in one way only. *)
Lemma call_aligned (gap2 gap3 obj x gap2' gap3' obj' x' : pystr) :
  forallb is_space gap2 = true -> forallb is_space gap2' = true ->
  forallb is_space gap3 = true -> forallb is_space gap3' = true ->
  obj <> [] -> forallb (is_word uni_alnum) obj = true ->
  obj' <> [] -> forallb (is_word uni_alnum) obj' = true ->
  gap2 ++ str "await" ++ gap3 ++ obj ++ str ".ReadByIdAsync(" ++ x
  = gap2' ++ str "await" ++ gap3' ++ obj' ++ str ".ReadByIdAsync(" ++ x' ->
  x = x'.
Proof.
  intros G2 G2' G3 G3' No Wo No' Wo' E.
  apply (f_equal (skip is_space)) in E.
  rewrite !skip_run in E by (assumption || reflexivity).
  apply app_inv_head in E.
  apply (f_equal (skip is_space)) in E.
  rewrite !skip_run in E
    by first [ assumption
             | apply (stops_run _ (is_word uni_alnum));
               [apply (word_not_space uni_alnum alnum_not_space) | assumption..] ].
  apply (f_equal (skip (is_word uni_alnum))) in E.
  rewrite !skip_run in E by (assumption || reflexivity).
  apply app_inv_head in E. exact E.
Qed.

Lemma single_eq_split (p q l t : pystr) :
  p ++ ch "=" :: q = l ++ ch "=" :: t -> ch "=" ∉ l -> ch "=" ∉ t -> p = l /\ q = t.
Proof.
  intros E Hl Ht.
  assert (Hp : ch "=" ∉ p).
  { apply occurrences_none. apply occurrences_none in Hl, Ht.
    apply (f_equal (occurrences (ch "="))) in E.
    rewrite !occurrences_app in E. cbn [occurrences] in E. rewrite N.eqb_refl in E. lia. }
  apply not_elem_of_app_cons_inv_l in E as (E1 & _ & E2); auto.
Qed.

End Calls.

(** A read-by-id call is passed over when its argument list is empty, or
    when the first [)] after [.ReadByIdAsync(] is not followed at once by
    [;], as with a call nested in the arguments or a call chained behind:
    in a text whose only ['='] is the statement's, the rewriter changes
    nothing.  The first hypothesis is on the table of alphanumeric
    characters: no white-space character is in it. *)
Theorem read_by_id_skips_nested_call (ua : N -> bool) (l gap2 gap3 obj args y : pystr) :
  (forall c, is_space c = true -> ua c = false) ->
  ch "=" ∉ l ->
  forallb is_space gap2 = true ->
  forallb is_space gap3 = true ->
  obj <> [] -> forallb (is_word ua) obj = true ->
  ch ")" ∉ args -> ch "=" ∉ args -> ch "=" ∉ y ->
  args = [] \/ head y <> Some (ch ";") ->
  let text := l ++ str "=" ++ gap2 ++ str "await" ++ gap3 ++ obj
              ++ str ".ReadByIdAsync(" ++ args ++ str ")" ++ y in
  fix_read_by_id_pattern ua text = Return text.
Proof.
  intros Hua Hl G2 G3 No Wo Pa Ea Ey Hy text.
  apply sub_from_no_match, re_search_None. intros i.
  destruct (re_match ua read_by_id_regex (drop i text)) as [[m rest]|] eqn:E; [|reflexivity].
  exfalso. apply re_match_sound in E as (whole & g & Hd & M & _).
  assert (S : read_by_id_statement ua whole) by (apply read_by_id_instances; eauto).
  destruct S as (indent & ty & sep & var & gap & gap2' & gap3' & obj' & args' & -> & D & G2'
                 & _ & G3' & No' & Wo' & Na' & Pa').
  pose proof (take_drop i text) as Ht. rewrite Hd in Ht.
  destruct (declaration_no_eq ua _ _ _ _ _ D) as (Ni & Nt & Ns & Nv & Ng).
  replace (take i text ++ (indent ++ ty ++ sep ++ var ++ gap ++ str "=" ++ gap2' ++ str "await"
             ++ gap3' ++ obj' ++ str ".ReadByIdAsync(" ++ args' ++ str ");") ++ rest)
    with ((take i text ++ indent ++ ty ++ sep ++ var ++ gap) ++ ch "=" ::
          gap2' ++ str "await" ++ gap3' ++ obj' ++ str ".ReadByIdAsync(" ++ args' ++ str ");" ++ rest)
    in Ht by (rewrite <- !app_assoc; reflexivity).
  unfold text in Ht at 2.
  apply single_eq_split in Ht as [_ Ht]; [|exact Hl|].
  - apply (call_aligned ua Hua) in Ht; try assumption.
    change (args' ++ str ");" ++ rest = args ++ str ")" ++ y)
      with (args' ++ ch ")" :: ch ";" :: rest = args ++ ch ")" :: y) in Ht.
    apply not_elem_of_app_cons_inv_l in Ht as (Hargs & _ & Hrest); [|assumption..].
    subst. destruct Hy as [Hy|Hy]; [contradiction | apply Hy; reflexivity].
  - rewrite !not_elem_of_app. split_and!; try assumption.
    + eapply not_elem_forallb; [exact G2 | reflexivity].
    + apply not_eq_literal. reflexivity.
    + eapply not_elem_forallb; [exact G3 | reflexivity].
    + eapply not_elem_forallb; [exact Wo | reflexivity].
    + apply not_eq_literal. reflexivity.
    + apply not_eq_literal. reflexivity.
Qed.

Lemma read_by_id_skips_nested_call_example :
  fix_read_by_id_pattern ascii_table (str "    Foo bar = await repo.ReadByIdAsync(GetId(x));")
  = Return (str "    Foo bar = await repo.ReadByIdAsync(GetId(x));").
Proof.
  refine (read_by_id_skips_nested_call ascii_table
            (str "    Foo bar ") (str " ") (str " ") (str "repo") (str "GetId(x") (str ");")
            _ _ _ _ _ _ _ _ _ _).
  - intros c _. reflexivity.
  - apply (not_elem_forallb (fun c => negb (c =? ch "="))); reflexivity.
  - reflexivity.
  - reflexivity.
  - discriminate.
  - reflexivity.
  - apply (not_elem_forallb (fun c => negb (c =? ch ")"))); reflexivity.
  - apply (not_elem_forallb (fun c => negb (c =? ch "="))); reflexivity.
  - apply (not_elem_forallb (fun c => negb (c =? ch "="))); reflexivity.
  - right. discriminate.
Defined.

(** ** When a rewriter changes the text *)

Section Changes.

Variable uni_alnum : N -> bool.
Variable r : regex.
Variable repl : gmap nat pystr -> exc pystr.

Hypothesis match_declares : forall s m rest,
  re_match uni_alnum r s = Some (m, rest) ->
  exists indent ty sep var gap tail out,
    declaration uni_alnum indent ty sep var gap /\
    s = (indent ++ ty ++ sep ++ var ++ gap ++ ch "=" :: tail) ++ rest /\
    repl m = Return (indent ++ ty ++ str "? " ++ var ++ str " " ++ ch "=" :: out) /\
    (ch "=" ∉ tail -> ch "=" ∉ out).

(** Where the scan finds a match, its result first departs from the text at
    the white space behind the type of the first match, where it has [?]. *)
Lemma sub_first_change (s out : pystr) :
  re_search uni_alnum r s <> None -> sub_from uni_alnum r repl s 0 = Return out ->
  exists p b x y, s = p ++ b :: x /\ out = p ++ ch "?" :: y /\ is_space b = true.
Proof.
  revert out. induction s as [|c s IH]; intros out Hs Ho.
  - exfalso. simpl in Hs. destruct (re_match uni_alnum r []) as [[m rest]|] eqn:E; [|congruence].
    apply match_declares in E as (indent & ty & sep & var & gap & tail & o & D & E & _).
    destruct D as (Hi & _). destruct indent; [contradiction | discriminate].
  - destruct (re_match uni_alnum r (c :: s)) as [[m rest]|] eqn:E.
    + destruct (match_declares _ _ _ E)
        as (indent & ty & sep & var & gap & tail & o & D & Es & Er & _).
      rewrite Es in E, Ho |- *.
      rewrite (sub_from_hit _ _ _ _ _ _ E) in Ho
        by (destruct D as (Hi & _); destruct indent; [contradiction | discriminate]).
      rewrite Er in Ho. cbn [mbind exc_mbind exc_bind] in Ho.
      destruct (sub_from uni_alnum r repl rest 0) as [o'|e]; [|discriminate].
      cbn [mbind exc_mbind exc_bind] in Ho. injection Ho as <-.
      destruct D as (_ & _ & _ & _ & Hsep & Ssep & _).
      destruct sep as [|b sep']; [contradiction|].
      simpl in Ssep. apply andb_true_iff in Ssep as [Sb _].
      exists (indent ++ ty), b, (sep' ++ var ++ gap ++ ch "=" :: tail ++ rest),
        (str " " ++ var ++ str " " ++ ch "=" :: o ++ o').
      split_and!; [| |exact Sb];
        repeat (rewrite <- app_assoc || rewrite <- app_comm_cons); reflexivity.
    + rewrite (sub_from_miss _ _ _ c s E) in Ho.
      destruct (sub_from uni_alnum r repl s 0) as [o|e]; [|discriminate].
      cbn [mbind exc_mbind exc_bind] in Ho. injection Ho as <-.
      assert (Hs' : re_search uni_alnum r s <> None) by (simpl in Hs; rewrite E in Hs; exact Hs).
      destruct (IH o Hs' eq_refl) as (p & b & x & y & -> & -> & Sb).
      exists (c :: p), b, x, y. auto.
Qed.

Lemma sub_changes (s : pystr) :
  sub_from uni_alnum r repl s 0 = Return s <-> re_search uni_alnum r s = None.
Proof.
  split; [|apply sub_from_no_match].
  intros Ho. destruct (re_search uni_alnum r s) as [g|] eqn:E; [|reflexivity].
  exfalso. destruct (sub_first_change s s) as (p & b & x & y & H1 & H2 & Sb);
    [rewrite E; discriminate | exact Ho |].
  rewrite H1 in H2 at 1. apply app_inv_head in H2. injection H2 as -> _. discriminate.
Qed.

End Changes.

(** A text whose character at [length p] is white space differs from any
    text that agrees with it up to there and has [?] at that place; this is
    how the result of a rewriter that matched differs from its input. *)
Lemma first_change_differs (p1 p2 x y x' y' : pystr) (b1 b2 : N) :
  is_space b1 = true -> is_space b2 = true ->
  p1 ++ ch "?" :: y = p2 ++ b2 :: x' ->
  p2 ++ ch "?" :: y' <> p1 ++ b1 :: x.
Proof.
  intros S1 S2 E1 E2.
  assert (L : forall (p q : pystr) (a : N), (p ++ a :: q) !! length p = Some a).
  { intros p q a. rewrite lookup_app_r by lia. rewrite Nat.sub_diag. reflexivity. }
  destruct (Nat.lt_trichotomy (length p1) (length p2)) as [Hlt|[Heq|Hgt]].
  - pose proof (L p1 y (ch "?")) as A. rewrite E1, lookup_app_l in A by exact Hlt.
    pose proof (L p1 x b1) as B. rewrite <- E2, lookup_app_l, A in B by exact Hlt.
    injection B as <-. discriminate.
  - pose proof (L p1 y (ch "?")) as A. rewrite E1, Heq, L in A.
    injection A as ->. discriminate.
  - pose proof (L p2 x' b2) as A. rewrite <- E1, lookup_app_l in A by exact Hgt.
    pose proof (L p2 y' (ch "?")) as B. rewrite E2, lookup_app_l, A in B by exact Hgt.
    injection B as ->. discriminate.
Qed.

(** The read-by-id rewriter returns its input unchanged exactly when the
    pattern matches nowhere in it: a replacement never reproduces the text
    it replaces, since it has [?] where the match has white space. *)
Theorem read_by_id_changes_iff_matched (ua : N -> bool) (text : pystr) :
  fix_read_by_id_pattern ua text = Return text <-> re_search ua read_by_id_regex text = None.
Proof. apply sub_changes. intros s m rest. apply read_by_id_declares. Qed.

(** The same for the first-or-default rewriter. *)
Theorem first_or_default_changes_iff_matched (ua : N -> bool) (text : pystr) :
  fix_first_or_default_pattern ua text = Return text
  <-> re_search ua first_or_default_regex text = None.
Proof. apply sub_changes. intros s m rest. apply first_or_default_declares. Qed.

Lemma apply_fixes_changes (ua : N -> bool) (text : pystr) :
  apply_fixes ua text = Return text <->
  re_search ua read_by_id_regex text = None /\ re_search ua first_or_default_regex text = None.
Proof.
  pose proof (fun s m rest => read_by_id_declares ua s rest m) as D1.
  pose proof (fun s m rest => first_or_default_declares ua s rest m) as D2.
  split.
  - intros H. unfold apply_fixes in H.
    destruct (fix_read_by_id_pattern ua text) as [t1|e] eqn:E1; [|discriminate].
    cbn [mbind exc_mbind exc_bind] in H.
    destruct (re_search ua read_by_id_regex text) as [g1|] eqn:S1.
    + exfalso.
      destruct (sub_first_change ua _ _ D1 text t1) as (p1 & b1 & x & y & T & T1 & Sb1);
        [rewrite S1; discriminate | exact E1 |].
      destruct (re_search ua first_or_default_regex t1) as [g2|] eqn:S2.
      * destruct (sub_first_change ua _ _ D2 t1 text) as (p2 & b2 & x' & y' & T1' & T' & Sb2);
          [rewrite S2; discriminate | exact H |].
        rewrite T1 in T1'. rewrite T in T' at 1.
        exact (first_change_differs p1 p2 x y x' y' b1 b2 Sb1 Sb2 T1' (eq_sym T')).
      * apply (sub_from_no_match ua _ first_or_default_replacer) in S2.
        unfold fix_first_or_default_pattern, re_sub in H. rewrite S2 in H.
        injection H as H. rewrite T, T1 in H.
        apply app_inv_head in H. injection H as <- _. discriminate.
    + apply (sub_from_no_match ua _ read_by_id_replacer) in S1.
      unfold fix_read_by_id_pattern, re_sub in E1. rewrite S1 in E1. injection E1 as <-.
      split; [reflexivity|]. apply (sub_changes ua _ _ D2), H.
  - intros [S1 S2]. unfold apply_fixes, fix_read_by_id_pattern, re_sub.
    rewrite (sub_from_no_match ua _ read_by_id_replacer _ S1).
    apply (sub_from_no_match ua _ first_or_default_replacer _ S2).
Qed.

(** On a text with at most one ['='] the two rewriters reach a text they
    leave as it is. *)
Lemma apply_fixes_settles (ua : N -> bool) (text : pystr) :
  (forall c, is_space c = true -> ua c = false) ->
  (occurrences (ch "=") text <= 1)%nat ->
  exists once, apply_fixes ua text = Return once /\ apply_fixes ua once = Return once.
Proof.
  intros Hua H. unfold apply_fixes.
  destruct (read_by_id_at_most_one ua Hua text H) as [N1|(t1 & E1 & G1)].
  - assert (E1 : fix_read_by_id_pattern ua text = Return text) by apply sub_from_no_match, N1.
    destruct (first_or_default_at_most_one ua Hua text H) as [N2|(t2 & E2 & G2)].
    + assert (E2 : fix_first_or_default_pattern ua text = Return text)
        by apply sub_from_no_match, N2.
      exists text. rewrite E1. cbn [mbind exc_mbind exc_bind]. auto.
    + destruct (guarded_read_by_id ua Hua t2 G2) as [_ F1].
      destruct (guarded_first_or_default ua Hua t2 G2) as [_ F2].
      exists t2. rewrite E1, F1. cbn [mbind exc_mbind exc_bind]. auto.
  - destruct (guarded_read_by_id ua Hua t1 G1) as [_ F1].
    destruct (guarded_first_or_default ua Hua t1 G1) as [_ F2].
    exists t1. rewrite E1, F1. cbn [mbind exc_mbind exc_bind]. auto.
Qed.

(** ** The file processor, case by case *)

(** [process_file] has four outcomes and no other.  The read raises: the
    error line, [False], the file system untouched.  The rewriters return
    the text they were given: ["No changes needed"], [False], nothing
    written.  They return another text and the write succeeds: the new text
    is written, ["Fixed"], [True].  The write raises: the error line,
    [False], the file system as the failed write left it.  The [except]
    branch is never entered from a rewriter. *)
Theorem process_file_cases (ua : N -> bool) (FS : Type)
    (os_read : FS -> pystr -> exc pystr) (os_write : FS -> pystr -> pystr -> FS * exc unit)
    (w : world FS) (path : pystr) :
  (exists e,
     os_read (fs FS w) path = Raise e /\
     process_file ua FS os_read os_write path w
     = (World FS (fs FS w) (trace FS w ++ [OpenRead path; Print (error_line path e)]),
        Return false)) \/
  (exists content,
     os_read (fs FS w) path = Return content /\
     apply_fixes ua content = Return content /\
     process_file ua FS os_read os_write path w
     = (World FS (fs FS w)
          (trace FS w ++ [OpenRead path; Print (str "No changes needed: " ++ path)]),
        Return false)) \/
  (exists content content' fs',
     os_read (fs FS w) path = Return content /\
     apply_fixes ua content = Return content' /\ content' <> content /\
     os_write (fs FS w) path content' = (fs', Return tt) /\
     process_file ua FS os_read os_write path w
     = (World FS fs'
          (trace FS w ++ [OpenRead path; OpenWrite path content'; Print (str "Fixed: " ++ path)]),
        Return true)) \/
  (exists content content' fs' e,
     os_read (fs FS w) path = Return content /\
     apply_fixes ua content = Return content' /\ content' <> content /\
     os_write (fs FS w) path content' = (fs', Raise e) /\
     process_file ua FS os_read os_write path w
     = (World FS fs'
          (trace FS w ++ [OpenRead path; OpenWrite path content'; Print (error_line path e)]),
        Return false)).
Proof.
  destruct (os_read (fs FS w) path) as [content|e] eqn:Hr.
  - destruct (apply_fixes_returns ua content) as [content' He].
    destruct (decide (content' = content)) as [->|Hne].
    + right; left. exists content. split_and!; [reflexivity | exact He |].
      apply (process_file_unchanged ua FS os_read os_write w path content Hr He).
    + pose proof (process_file_changed ua FS os_read os_write w path content content' Hr He Hne)
        as Hp.
      destruct (os_write (fs FS w) path content') as [fs' [[]|e]] eqn:Hw.
      * right; right; left. exists content, content', fs'. auto.
      * right; right; right. exists content, content', fs', e. auto.
  - left. exists e. split; [reflexivity|].
    apply (process_file_read_error ua FS os_read os_write w path e Hr).
Qed.

(** For a file that can be read, [process_file] reports ["No changes
    needed"] exactly when neither pattern matches anywhere in its text: no
    sequence of replacements gives the text back. *)
Theorem no_changes_iff_no_match (ua : N -> bool) (FS : Type)
    (os_read : FS -> pystr -> exc pystr) (os_write : FS -> pystr -> pystr -> FS * exc unit)
    (w : world FS) (path content : pystr) :
  os_read (fs FS w) path = Return content ->
  process_file ua FS os_read os_write path w
  = (World FS (fs FS w)
       (trace FS w ++ [OpenRead path; Print (str "No changes needed: " ++ path)]),
     Return false)
  <-> re_search ua read_by_id_regex content = None /\
      re_search ua first_or_default_regex content = None.
Proof.
  intros Hr. rewrite <- apply_fixes_changes. split.
  - intros Hp. destruct (apply_fixes_returns ua content) as [content' He].
    destruct (decide (content' = content)) as [->|Hne]; [exact He|]. exfalso.
    rewrite (process_file_changed ua FS os_read os_write w path content content' Hr He Hne) in Hp.
    destruct (os_write (fs FS w) path content') as [fs' [[]|e]]; [discriminate|].
    injection Hp as _ Hp. apply app_inv_head in Hp. discriminate.
  - apply (process_file_unchanged ua FS os_read os_write w path content Hr).
Qed.

Lemma no_changes_iff_no_match_example :
  let path := str "Program.cs" in
  let content := str "    Widget w = items.FirstOrDefault();" in
  let w := World (gmap pystr pystr) {[ path := content ]} [] in
  process_file ascii_table _ disk_read disk_write path w
  = (World _ {[ path := content ]} ([] ++ [OpenRead path; Print (str "No changes needed: " ++ path)]),
     Return false)
  <-> re_search ascii_table read_by_id_regex content = None /\
      re_search ascii_table first_or_default_regex content = None.
Proof.
  cbv zeta.
  refine (no_changes_iff_no_match ascii_table (gmap pystr pystr) disk_read disk_write
            (World _ {[ str "Program.cs" := str "    Widget w = items.FirstOrDefault();" ]} [])
            (str "Program.cs") (str "    Widget w = items.FirstOrDefault();") _).
  vm_compute. reflexivity.
Defined.

(** Running the script again on a file it has fixed.  When the text has at
    most one ['='] and the file system gives back on reading what was just
    written, the second call finds nothing to do: it reads, reports ["No
    changes needed"], returns [False] and writes nothing.  The first
    hypothesis is on the table of alphanumeric characters: no white-space
    character is in it. *)
Theorem second_run_finds_nothing (ua : N -> bool) (FS : Type)
    (os_read : FS -> pystr -> exc pystr) (os_write : FS -> pystr -> pystr -> FS * exc unit)
    (w w1 : world FS) (path content : pystr) :
  (forall c, is_space c = true -> ua c = false) ->
  os_read (fs FS w) path = Return content ->
  (occurrences (ch "=") content <= 1)%nat ->
  (forall text fs', os_write (fs FS w) path text = (fs', Return tt) ->
                    os_read fs' path = Return text) ->
  process_file ua FS os_read os_write path w = (w1, Return true) ->
  process_file ua FS os_read os_write path w1
  = (World FS (fs FS w1)
       (trace FS w1 ++ [OpenRead path; Print (str "No changes needed: " ++ path)]),
     Return false).
Proof.
  intros Hua Hr Ho Hfs Hp.
  destruct (apply_fixes_settles ua content Hua Ho) as (once & He & Hq).
  destruct (decide (once = content)) as [->|Hne].
  - rewrite (process_file_unchanged ua FS os_read os_write w path content Hr He) in Hp.
    discriminate.
  - rewrite (process_file_changed ua FS os_read os_write w path content once Hr He Hne) in Hp.
    destruct (os_write (fs FS w) path once) as [fs' [[]|e]] eqn:Hw; [|discriminate].
    apply (f_equal fst) in Hp. cbn [fst] in Hp. subst w1.
    exact (process_file_unchanged ua FS os_read os_write
             (World FS fs' (trace FS w ++ [OpenRead path; OpenWrite path once;
                                           Print (str "Fixed: " ++ path)]))
             path once (Hfs once fs' Hw) Hq).
Qed.

Lemma second_run_finds_nothing_example :
  let path := str "Test.cs" in
  let fixed := str "    Widget? w = items.FirstOrDefault();" ++ [nl]
               ++ str "    Assert.NotNull(w);" in
  let w1 := World (gmap pystr pystr) {[ path := fixed ]}
              [OpenRead path; OpenWrite path fixed; Print (str "Fixed: Test.cs")] in
  process_file ascii_table _ disk_read disk_write path w1
  = (World _ {[ path := fixed ]}
       (trace _ w1 ++ [OpenRead path; Print (str "No changes needed: " ++ path)]),
     Return false).
Proof.
  cbv zeta.
  refine (second_run_finds_nothing ascii_table (gmap pystr pystr) disk_read disk_write
            (World _ {[ str "Test.cs" := str "    Widget w = items.FirstOrDefault();" ]} [])
            (World _ {[ str "Test.cs" := str "    Widget? w = items.FirstOrDefault();" ++ [nl]
                                         ++ str "    Assert.NotNull(w);" ]}
               [OpenRead (str "Test.cs");
                OpenWrite (str "Test.cs")
                  (str "    Widget? w = items.FirstOrDefault();" ++ [nl]
                   ++ str "    Assert.NotNull(w);");
                Print (str "Fixed: Test.cs")])
            (str "Test.cs") (str "    Widget w = items.FirstOrDefault();") _ _ _ _ _).
  - intros c _. reflexivity.
  - vm_compute. reflexivity.
  - vm_compute. lia.
  - intros text fs' H. injection H as <-. unfold disk_read. rewrite lookup_insert_eq. reflexivity.
  - vm_compute. reflexivity.
Defined.

(** ** The main loop and the files it opens *)

Section Loop.

Variable uni_alnum : N -> bool.
Variable FS : Type.
Variable os_read : FS -> pystr -> exc pystr.
Variable os_write : FS -> pystr -> pystr -> FS * exc unit.

Lemma file_outcome_opens (path : pystr) (tr : list event) (ev : event) (p : pystr) :
  file_outcome path tr -> ev ∈ tr -> p ∈ opened ev -> p = path.
Proof.
  intros (mid & line & -> & Hmid & _) Hev Hp.
  apply elem_of_cons in Hev as [->|Hev]; [apply list_elem_of_singleton in Hp; exact Hp|].
  apply elem_of_app in Hev as [Hev|Hev].
  - destruct Hmid as [->|[text ->]]; [inversion Hev|].
    apply list_elem_of_singleton in Hev as ->. apply list_elem_of_singleton in Hp. exact Hp.
  - apply list_elem_of_singleton in Hev as ->. inversion Hp.
Qed.

Lemma outcomes_open (l : list pystr) (trs : list (list event)) (ev : event) (p : pystr) :
  Forall2 file_outcome l trs -> ev ∈ concat trs -> p ∈ opened ev -> p ∈ l.
Proof.
  induction 1 as [|path tr l trs Ho _ IH]; cbn [concat]; intros Hev Hp; [inversion Hev|].
  apply elem_of_app in Hev as [Hev|Hev].
  - rewrite (file_outcome_opens path tr ev p Ho Hev Hp). apply elem_of_cons. auto.
  - apply elem_of_cons. auto.
Qed.

Lemma for_each_untouched (l : list pystr) :
  forall w : world FS,
    (forall path content, path ∈ l -> os_read (fs FS w) path = Return content ->
                          apply_fixes uni_alnum content = Return content) ->
    exists w' tr,
      for_each FS l (process_file uni_alnum FS os_read os_write) w = (w', Return tt) /\
      fs FS w' = fs FS w /\ trace FS w' = trace FS w ++ tr /\
      forall p text, OpenWrite p text ∉ tr.
Proof.
  induction l as [|path l IH]; intros w H.
  - exists w, []. rewrite app_nil_r. split_and!; [reflexivity..|].
    intros p text Hin. inversion Hin.
  - assert (exists line,
              process_file uni_alnum FS os_read os_write path w
              = (World FS (fs FS w) (trace FS w ++ [OpenRead path; Print line]), Return false))
      as [line Hp].
    { destruct (os_read (fs FS w) path) as [content|e] eqn:Hr.
      - eexists. apply (process_file_unchanged uni_alnum FS os_read os_write w path content Hr).
        apply (H path content); [apply elem_of_cons; auto | exact Hr].
      - eexists. apply (process_file_read_error uni_alnum FS os_read os_write w path e Hr). }
    destruct (IH (World FS (fs FS w) (trace FS w ++ [OpenRead path; Print line])))
      as (w' & tr & Hf & Hfs & Htr & Hw).
    { cbn [fs]. intros p content Hin. apply H. apply elem_of_cons. auto. }
    exists w', ([OpenRead path; Print line] ++ tr). split_and!.
    + cbn [for_each]. unfold mbind, io_mbind, io_bind. rewrite Hp. exact Hf.
    + exact Hfs.
    + rewrite Htr. cbn [trace]. rewrite <- app_assoc. reflexivity.
    + intros p text Hin. apply elem_of_app in Hin as [Hin|Hin]; [|exact (Hw p text Hin)].
      repeat (apply elem_of_cons in Hin as [Hin|Hin]; [discriminate|]). inversion Hin.
Qed.

End Loop.

(** The script opens no file but the two of its list: whatever the file
    system answers, every file [main] opens, for reading or for writing, is
    one of the hardcoded paths. *)
Theorem main_opens_only_listed_files (ua : N -> bool) (FS : Type)
    (os_read : FS -> pystr -> exc pystr) (os_write : FS -> pystr -> pystr -> FS * exc unit)
    (w : world FS) :
  exists w' tr,
    main ua FS os_read os_write w = (w', Return tt) /\
    trace FS w' = trace FS w ++ tr /\
    forall ev p, ev ∈ tr -> p ∈ opened ev -> p ∈ files.
Proof.
  unfold main. destruct (for_each_outcome ua FS os_read os_write files w) as (w' & trs & E & T & O).
  exists w', (concat trs). split_and!; [exact E | exact T |].
  intros ev p Hev Hp. exact (outcomes_open files trs ev p O Hev Hp).
Qed.

(** When neither pattern matches in any listed file that can be read, the
    script writes nothing: the file system after [main] is the one before,
    and no file was opened for writing. *)
Theorem main_writes_nothing_without_match (ua : N -> bool) (FS : Type)
    (os_read : FS -> pystr -> exc pystr) (os_write : FS -> pystr -> pystr -> FS * exc unit)
    (w : world FS) :
  (forall path content, path ∈ files -> os_read (fs FS w) path = Return content ->
     re_search ua read_by_id_regex content = None /\
     re_search ua first_or_default_regex content = None) ->
  exists w' tr,
    main ua FS os_read os_write w = (w', Return tt) /\
    fs FS w' = fs FS w /\ trace FS w' = trace FS w ++ tr /\
    forall p text, OpenWrite p text ∉ tr.
Proof.
  intros H. apply for_each_untouched. intros path content Hin Hr.
  apply apply_fixes_changes. exact (H path content Hin Hr).
Qed.

Lemma main_writes_nothing_example :
  let disk : gmap pystr pystr :=
    {[ str "C:\Code\Durable\src\Test.MySql\MySqlBatchInsertTests.cs"
       := str "int x = 5;" ++ [nl] ++ str "return x;" ]} in
  exists w' tr,
    main ascii_table _ disk_read disk_write (World _ disk []) = (w', Return tt) /\
    fs _ w' = disk /\ trace _ w' = [] ++ tr /\
    forall p text, OpenWrite p text ∉ tr.
Proof.
  cbv zeta.
  refine (main_writes_nothing_without_match ascii_table (gmap pystr pystr) disk_read disk_write
            (World _ {[ str "C:\Code\Durable\src\Test.MySql\MySqlBatchInsertTests.cs"
                        := str "int x = 5;" ++ [nl] ++ str "return x;" ]} []) _).
  intros path content Hin Hr. unfold files in Hin.
  apply elem_of_cons in Hin as [->|Hin].
  - vm_compute in Hr. injection Hr as <-. split; vm_compute; reflexivity.
  - apply list_elem_of_singleton in Hin as ->. vm_compute in Hr. discriminate.
Defined.
